(** * crypto-pulse-hub: the InfluxDB gateway of [src/services/influx.js]

    A shallow embedding of the module: its write options, the shared
    keep-alive agent and its exit hook, and the three exported operations
    [writeData], [queryData] and [queryLatestDataPoint].

    JavaScript effects are written out: synchronous code runs in a state
    and exception monad over a [World]; a promise is a small tree whose
    leaves are replies owned by the store client and whose inner nodes are
    the [then]/[catch] reactions registered by the module. *)

From Stdlib Require Import ZArith Lia Ascii String.
From Stdlib.Floats Require Import SpecFloat.
From stdpp Require Import base gmap strings list.

Local Open Scope string_scope.
Local Open Scope list_scope.
Local Open Scope Z_scope.

(** ** JavaScript values, errors, and the Date conversion *)

Module Js.

(** The double quote and the line feed, as one-character strings. *)
Definition dquote : string := String "034"%char EmptyString.
Definition newline : string := String "010"%char EmptyString.

(** Primitive values found in the rows handed back by the store client:
    numbers are IEEE doubles in their specification form. *)
Inductive Value : Type :=
| VUndefined
| VNull
| VBool (b : bool)
| VNumber (x : spec_float)
| VString (s : string).

(** An [Error] object: its constructor name and its [message]. *)
Record JsError : Type := mkError { name : string; message : string }.

(** Outcome of synchronous code. *)
Inductive completion (A : Type) : Type :=
| Normal (a : A)
| Throw (e : JsError).
Arguments Normal {A} a.
Arguments Throw {A} e.

(** State of a settled promise. *)
Inductive settled (A : Type) : Type :=
| Fulfilled (a : A)
| Rejected (e : JsError).
Arguments Fulfilled {A} a.
Arguments Rejected {A} e.

(** A plain object of columns, as [collectRows] builds them; reading a
    property that is not there gives [undefined]. *)
Definition get_property (o : gmap string Value) (key : string) : Value :=
  default VUndefined (o !! key).

(** What V8 throws for [undefined.key]. *)
Definition TypeError_read_undefined (key : string) : JsError :=
  mkError "TypeError"
    ("Cannot read properties of undefined (reading '" +:+ key +:+ "')").

(** A time value: [NaN] (an invalid Date) or whole milliseconds since
    the epoch. *)
Inductive TimeValue : Type :=
| NaN
| Ms (t : Z).

Definition max_time : Z := 8640000000000000.

(** ECMAScript TimeClip on a double: not finite or beyond 8.64e15 gives
    NaN, otherwise the value truncated towards zero. *)
Definition TimeClip (x : spec_float) : TimeValue :=
  match x with
  | S754_zero _ => Ms 0
  | S754_infinity _ => NaN
  | S754_nan => NaN
  | S754_finite sign m e =>
      let beyond :=
        if 0 <=? e then max_time <? Z.pos m * 2 ^ e
        else max_time * 2 ^ (- e) <? Z.pos m in
      if beyond then NaN
      else
        let magnitude :=
          if 0 <=? e then Z.pos m * 2 ^ e else Z.pos m / 2 ^ (- e) in
        Ms (if sign then - magnitude else magnitude)
  end.

(** [new Date(v).getTime()] for a primitive [v]: a string goes through
    [Date.parse] (a built-in of the runtime, taken as [parse]), anything
    else through ToNumber and TimeClip. *)
Definition Date_getTime (parse : string -> TimeValue) (v : Value) : TimeValue :=
  match v with
  | VString s => parse s
  | VUndefined => NaN
  | VNull => Ms 0
  | VBool b => if b then Ms 1 else Ms 0
  | VNumber x => TimeClip x
  end.

End Js.
Export Js.

(** ** The store client

    [@influxdata/influxdb-client] and Node's [http.Agent] are not part of
    this repository.  The module only configures them and calls
    [writePoints], [flush] and [collectRows]; what those do is modelled
    below from the option descriptions quoted in the source (lines 11-19)
    and from sections 3 and 6 of the specification. *)

Module Client.

(** A measurement record (specification, section 3).  The module never
    looks inside one. *)
Record Point : Type := mkPoint {
  measurement : string;
  tags : gmap string string;
  fields : gmap string Value;
  time : Z
}.

(** The four write options the source sets. *)
Record WriteOptions : Type := mkWriteOptions {
  batchSize : Z;
  flushInterval : Z;
  maxBufferLines : Z;
  maxRetries : Z
}.

(** Why a batch left the write buffer. *)
Inductive FlushTrigger : Type :=
| Explicit   (* the caller asked: [writeApi.flush()] *)
| BySize     (* the buffer reached [batchSize] *)
| ByTimer.   (* [flushInterval] elapsed *)

Record Batch : Type := mkBatch {
  lines : list Point;
  trigger : FlushTrigger
}.

(** Modelled from the spec: the client's write API, which is not under
    src/.  It holds its effective options, the unflushed points, whether
    the periodic flush is scheduled, every batch handed to the transport
    so far (oldest first), and how often [flush] was called. *)
Record WriteApi : Type := mkWriteApi {
  options : WriteOptions;
  buffer : list Point;
  timer : bool;
  sent : list Batch;
  flush_calls : nat
}.

(** Modelled from the spec: the buffer is emptied, the batch goes to
    the transport and the pending timer is cleared. *)
Definition send (why : FlushTrigger) (api : WriteApi) : WriteApi :=
  {| options := options api;
     buffer := [];
     timer := false;
     sent := sent api ++ [mkBatch (buffer api) why];
     flush_calls := flush_calls api |}.

(** Modelled from the spec: one point enters the buffer.  The first
    point of a batch schedules the periodic flush unless [flushInterval]
    is 0 ("0 means don't periodically flush"); reaching [batchSize]
    ("the maximum points/lines to send in a single batch") sends the
    batch at once. *)
Definition add (p : Point) (api : WriteApi) : WriteApi :=
  let scheduled :=
    match buffer api with
    | [] => (0 <? flushInterval (options api)) || timer api
    | _ :: _ => timer api
    end in
  let api' :=
    {| options := options api;
       buffer := buffer api ++ [p];
       timer := scheduled;
       sent := sent api;
       flush_calls := flush_calls api |} in
  if batchSize (options api') <=? Z.of_nat (length (buffer api'))
  then send BySize api'
  else api'.

(** Modelled from the spec: the scheduled timer goes off and sends
    whatever is buffered. *)
Definition timer_fires (api : WriteApi) : WriteApi :=
  if timer api then
    match buffer api with
    | [] => {| options := options api; buffer := []; timer := false;
               sent := sent api; flush_calls := flush_calls api |}
    | _ :: _ => send ByTimer api
    end
  else api.

(** Modelled from the spec: [getWriteApi(org, bucket, precision,
    writeOptions?)]; options that are not given are the client's
    defaults. *)
Definition getWriteApi (defaults : WriteOptions) (given : option WriteOptions)
  : WriteApi :=
  {| options := default defaults given;
     buffer := [];
     timer := false;
     sent := [];
     flush_calls := 0 |}.

(** Every point the API has accepted, in the order it left or will leave
    for the store. *)
Definition accepted (api : WriteApi) : list Point :=
  concat (map lines (sent api)) ++ buffer api.

(** A reply owned by the client: it settles at tick [ready] with
    [outcome]. *)
Record Reply (A : Type) : Type := mkReply {
  ready : nat;
  outcome : settled A
}.
Arguments mkReply {A} ready outcome.
Arguments ready {A} r.
Arguments outcome {A} r.

(** A shared [http.Agent]: its [keepAlive] option and how often
    [destroy] was called on it. *)
Record Agent : Type := mkAgent {
  keepAlive : bool;
  destroyed : nat
}.

End Client.
Export Client.

(** A row of a query result: column name to value. *)
Abbreviation Row := (gmap string Value).

(** ** The environment of the module

    [../env] supplies the connection settings, the client library its
    default write options, and the outside world the rest: on which
    elements of the array [writePoints] throws (a value that is not a
    [Point], say) and with what error, what the transport answers to the
    n-th batch, what the store answers to the n-th query, and the
    runtime's [Date.parse]. *)

Record Env : Type := mkEnv {
  influxUrl : string;
  influxToken : string;
  influxOrg : string;
  influxBucket : string;
  DEFAULT_WriteOptions : WriteOptions;
  point_fault : Point -> option JsError;
  transport : nat -> list Point -> Reply unit;
  store : nat -> string -> Reply (list Row);
  Date_parse : string -> TimeValue
}.

(** ** State of the loaded module *)

(** The client built at line 31: where it connects and which agent (by
    index among the process's agents) its transport uses. *)
Record InfluxDB : Type := mkInfluxDB {
  url : string;
  token : string;
  transport_agent : nat
}.

(** [influx], [writeApi], the queries issued through [queryApi], and the
    entries written with [logger.error]. *)
Record World : Type := mkWorld {
  influx : InfluxDB;
  writeApi : WriteApi;
  issued : list string;
  log : list string
}.

Definition with_writeApi (api : WriteApi) (w : World) : World :=
  {| influx := influx w; writeApi := api; issued := issued w; log := log w |}.

(** ** Synchronous code: state and exceptions *)

Definition M (A : Type) : Type := World -> completion A * World.

Definition ret {A : Type} (a : A) : M A := fun w => (Normal a, w).

Definition bind {A B : Type} (c : M A) (k : A -> M B) : M B :=
  fun w =>
    match c w with
    | (Normal a, w') => k a w'
    | (Throw e, w') => (Throw e, w')
    end.

Definition throw {A : Type} (e : JsError) : M A := fun w => (Throw e, w).

(** [try { body } catch (err) { handler }]: what [body] did to the state
    before it threw stays done. *)
Definition try_catch {A : Type} (body : M A) (handler : JsError -> M A) : M A :=
  fun w =>
    match body w with
    | (Normal a, w') => (Normal a, w')
    | (Throw e, w') => handler e w'
    end.

Declare Scope js_scope.
Delimit Scope js_scope with js.
Notation "x <- c ;; k" := (bind c (fun x => k))
  (at level 100, c at next level, right associativity) : js_scope.
Notation "c ;; k" := (bind c (fun _ => k))
  (at level 100, right associativity) : js_scope.

(** ** Promises *)

(** A promise is settled from the start, or is a reply of the client, or
    is derived from another promise by a reaction that runs, with its
    effects on the state, once that promise settles. *)
Inductive Promise (A : Type) : Type :=
| PSettled (s : settled A)
| PReply (r : Reply A)
| PReact {B : Type} (src : Promise B)
    (reaction : settled B -> World -> settled A * World).
Arguments PSettled {A} s.
Arguments PReply {A} r.
Arguments PReact {A B} src reaction.

Definition settle_of {A : Type} (c : completion A) : settled A :=
  match c with
  | Normal a => Fulfilled a
  | Throw e => Rejected e
  end.

(** [p.then(f)] for an [f] that returns a plain value or throws. *)
Definition then_ {A B : Type} (p : Promise B) (f : B -> M A) : Promise A :=
  PReact p (fun s w =>
    match s with
    | Fulfilled b => let (c, w') := f b w in (settle_of c, w')
    | Rejected e => (Rejected e, w)
    end).

(** [p.catch(g)] for a [g] that returns a plain value or throws. *)
Definition catch_ {A : Type} (p : Promise A) (g : JsError -> M A) : Promise A :=
  PReact p (fun s w =>
    match s with
    | Fulfilled a => (Fulfilled a, w)
    | Rejected e => let (c, w') := g e w in (settle_of c, w')
    end).

(** An [async] function: a thrown error becomes a rejected promise, and a
    returned promise is adopted. *)
Definition async {A : Type} (body : M (Promise A)) : M (Promise A) :=
  fun w =>
    match body w with
    | (Normal p, w') => (Normal p, w')
    | (Throw e, w') => (Normal (PSettled (Rejected e)), w')
    end.

(** The tick at which a promise settles. *)
Fixpoint settle_time {A : Type} (p : Promise A) : nat :=
  match p with
  | PSettled _ => 0%nat
  | PReply r => ready r
  | PReact src _ => settle_time src
  end.

(** The state a promise settles in, and the world once its reactions have
    run. *)
Fixpoint settle {A : Type} (p : Promise A) (w : World) : settled A * World :=
  match p with
  | PSettled s => (s, w)
  | PReply r => (outcome r, w)
  | PReact src reaction =>
      let (s, w') := settle src w in reaction s w'
  end.

(** What an observer sees at tick [t]: [None] while the promise is
    pending. *)
Definition poll {A : Type} (t : nat) (p : Promise A) (w : World)
  : option (settled A) * World :=
  if (settle_time p <=? t)%nat
  then let (s, w') := settle p w in (Some s, w')
  else (None, w).

(** ** The module [services/influx.js] *)

(** What [queryLatestDataPoint] resolves with. *)
Record LatestPoint : Type := mkLatestPoint {
  timestamp : TimeValue;
  symbol : Value;
  interval : Value
}.

Section Gateway.

Context (env : Env).
Local Open Scope js_scope.

(** *** Calls into the client and the logger *)

(** Modelled from the spec: [writeApi.writePoints(points)] takes the
    points one by one, in order; a point the client cannot serialise
    makes it throw, the points before it staying buffered. *)
Fixpoint writePoints (points : list Point) : M unit :=
  match points with
  | [] => ret tt
  | p :: rest =>
      match point_fault env p with
      | Some e => throw e
      | None =>
          (fun w => (Normal tt, with_writeApi (add p (writeApi w)) w)) ;;
          writePoints rest
      end
  end.

(** Modelled from the spec: [writeApi.flush()] never throws; it hands
    the buffered points to the transport and returns the transport's
    reply, or a fulfilled promise when nothing is buffered. *)
Definition flush : M (Promise unit) :=
  fun w =>
    let api := writeApi w in
    let called :=
      {| options := options api; buffer := buffer api; timer := timer api;
         sent := sent api; flush_calls := S (flush_calls api) |} in
    match buffer api with
    | [] => (Normal (PSettled (Fulfilled tt)), with_writeApi called w)
    | _ :: _ =>
        (Normal (PReply (transport env (length (sent api)) (buffer api))),
         with_writeApi (send Explicit called) w)
    end.

(** Modelled from the spec: [queryApi.collectRows(query)] never throws;
    it sends the query and returns the store's reply, all rows at
    once. *)
Definition collectRows (query : string) : M (Promise (list Row)) :=
  fun w =>
    (Normal (PReply (store env (length (issued w)) query)),
     {| influx := influx w; writeApi := writeApi w;
        issued := issued w ++ [query]; log := log w |}).

(** Modelled from the spec: [logger.error(msg)] of [../utils/logger],
    which is not under src/, records one entry. *)
Definition logger_error (msg : string) : M unit :=
  fun w =>
    (Normal tt,
     {| influx := influx w; writeApi := writeApi w;
        issued := issued w; log := log w ++ [msg] |}).

(** [o.key] where [o] may be [undefined]. *)
Definition member (o : option Row) (key : string) : M Value :=
  match o with
  | None => throw (TypeError_read_undefined key)
  | Some row => ret (get_property row key)
  end.

(** *** Lines 7-23: the write options *)

Definition flushBatchSize : Z := batchSize (DEFAULT_WriteOptions env).

Definition writeOptions : WriteOptions :=
  {| batchSize := flushBatchSize + 1;
     flushInterval := 15000;
     maxBufferLines := 30000;
     maxRetries := 0 |}.

(** *** Lines 49-57 *)

Definition writeData (points : list Point) : M (Promise unit) :=
  async (try_catch
           (writePoints points ;;
            flush)
           (fun err =>
              logger_error
                ("Error writing data points to InfluxDB: " +:+ message err) ;;
              throw err)).

(** *** Lines 64-66 *)

Definition queryData (query : string) : M (Promise (list Row)) :=
  collectRows query.

(** *** Lines 73-94 *)

Definition latest_query (metric : string) : string :=
  newline +:+
  "    from(bucket: " +:+ dquote +:+ influxBucket env +:+ dquote +:+ ")"
    +:+ newline +:+
  "      |> range(start: -1h)" +:+ newline +:+
  "      |> filter(fn: (r) => r._measurement == " +:+ dquote +:+ metric
    +:+ dquote +:+ ")" +:+ newline +:+
  "      |> last()" +:+ newline +:+
  "  ".

Definition queryLatestDataPoint (metric : string) : M (Promise LatestPoint) :=
  let query := latest_query metric in
  p <- queryData query ;;
  ret (catch_
         (then_ p (fun result =>
            let dataPoint := result !! 0%nat in
            _time <- member dataPoint "_time" ;;
            symbol <- member dataPoint "symbol" ;;
            interval <- member dataPoint "interval" ;;
            ret {| timestamp := Date_getTime (Date_parse env) _time;
                   symbol := symbol;
                   interval := interval |}))
         (fun err =>
            logger_error
              ("Error querying latest data point for metric " +:+ metric
                 +:+ ": " +:+ message err) ;;
            throw err)).

End Gateway.

(** ** The process: loading the module, calling it, shutting down *)

(** Every [Agent] constructed so far, the agents that the registered
    ['exit'] listeners destroy (by index, in registration order), and
    Node's module cache entry for [services/influx.js]. *)
Record Process : Type := mkProcess {
  agents : list Agent;
  exit_listeners : list nat;
  module_cache : option World
}.

Definition start : Process :=
  {| agents := []; exit_listeners := []; module_cache := None |}.

(** [agent.destroy()] *)
Definition destroy (a : Agent) : Agent :=
  {| keepAlive := keepAlive a; destroyed := S (destroyed a) |}.

(** The process emits ['exit']: each listener runs once. *)
Definition emit_exit (p : Process) : Process :=
  {| agents := foldl (fun ags i => alter destroy i ags) (agents p) (exit_listeners p);
     exit_listeners := exit_listeners p;
     module_cache := module_cache p |}.

Inductive Call : Type :=
| CallWriteData (points : list Point)
| CallQueryData (query : string)
| CallQueryLatestDataPoint (metric : string).

Inductive Action : Type :=
| Require            (* some module requires services/influx *)
| Invoke (c : Call)  (* a caller requires it and calls an export *)
| TimerFires.        (* the client's flush timer goes off *)

Section Lifecycle.

Context (env : Env).

(** Lines 31-39: the client on top of the agent, the write API (line 37
    passes no write options) and the query API; nothing written or
    queried or logged yet. *)
Definition module_state (agent : nat) : World :=
  {| influx := mkInfluxDB (influxUrl env) (influxToken env) agent;
     writeApi := getWriteApi (DEFAULT_WriteOptions env) None;
     issued := [];
     log := [] |}.

(** Lines 25-41, the module body: the agent, the module's state, and
    the exit listener. *)
Definition load (p : Process) : Process :=
  let agent := length (agents p) in
  {| agents := agents p ++ [mkAgent true 0];
     exit_listeners := exit_listeners p ++ [agent];
     module_cache := Some (module_state agent) |}.

(** [require('./services/influx')]: the body runs on the first call
    only. *)
Definition require (p : Process) : Process :=
  match module_cache p with
  | Some _ => p
  | None => load p
  end.

(** Run a call and let its promise settle. *)
Definition finish {A : Type} (call : M (Promise A)) (w : World) : World :=
  match call w with
  | (Normal p, w') => snd (settle p w')
  | (Throw _, w') => w'
  end.

Definition perform (c : Call) (w : World) : World :=
  match c with
  | CallWriteData points => finish (writeData env points) w
  | CallQueryData query => finish (queryData env query) w
  | CallQueryLatestDataPoint metric => finish (queryLatestDataPoint env metric) w
  end.

Definition on_module (f : World -> World) (p : Process) : Process :=
  {| agents := agents p;
     exit_listeners := exit_listeners p;
     module_cache := f <$> module_cache p |}.

Definition step (p : Process) (a : Action) : Process :=
  match a with
  | Require => require p
  | Invoke c => on_module (perform c) (require p)
  | TimerFires => on_module (fun w => with_writeApi (timer_fires (writeApi w)) w) p
  end.

Definition run (acts : list Action) (p : Process) : Process :=
  foldl step p acts.

End Lifecycle.

(** ** Vocabulary of the statements *)

(** The client serialises [p] without complaint. *)
Definition no_fault (env : Env) (p : Point) : Prop := point_fault env p = None.

(** The write API after [points] have been added one after the other. *)
Definition enqueue (points : list Point) (api : WriteApi) : WriteApi :=
  foldl (fun a p => add p a) api points.

(** A log entry carries [detail] somewhere in its text. *)
Definition mentions (entry detail : string) : Prop :=
  exists before after, entry = before +:+ detail +:+ after.

(** A call whose promise rejects leaves exactly one new log entry, and
    that entry carries the error's message. *)
Definition logs_failure_once {A : Type} (call : M (Promise A)) (w : World) : Prop :=
  forall p w' e w'',
    call w = (Normal p, w') ->
    settle p w' = (Rejected e, w'') ->
    exists entry, log w'' = log w ++ [entry] /\ mentions entry (message e).

(** The world with one more log entry. *)
Definition logged (entry : string) (w : World) : World :=
  {| influx := influx w; writeApi := writeApi w;
     issued := issued w; log := log w ++ [entry] |}.

(** The entries the two handlers of the module write. *)
Definition write_failure_entry (e : JsError) : string :=
  "Error writing data points to InfluxDB: " +:+ message e.

Definition latest_failure_entry (metric : string) (e : JsError) : string :=
  "Error querying latest data point for metric " +:+ metric +:+ ": "
    +:+ message e.

(** The reply the store gives to the query that [queryLatestDataPoint]
    issues from world [w]. *)
Definition latest_reply (env : Env) (metric : string) (w : World)
  : Reply (list Row) :=
  store env (length (issued w)) (latest_query env metric).

(** What the [then] callback makes of a first row. *)
Definition latest_of_row (env : Env) (row : Row) : LatestPoint :=
  {| timestamp := Date_getTime (Date_parse env) (get_property row "_time");
     symbol := get_property row "symbol";
     interval := get_property row "interval" |}.

(** An action whose points, if it writes any, the client accepts. *)
Definition accepted_action (env : Env) (a : Action) : Prop :=
  match a with
  | Invoke (CallWriteData points) => Forall (no_fault env) points
  | _ => True
  end.

(** Nothing waits in the module's write buffer. *)
Definition idle (p : Process) : Prop :=
  forall w, module_cache p = Some w -> buffer (writeApi w) = [].

(** Before the module is loaded: no agent and no exit listener. *)
Definition not_loaded (p : Process) : Prop :=
  module_cache p = None /\ agents p = [] /\ exit_listeners p = [].

(** Once the module is loaded: one agent, alive, with one exit listener
    that destroys it. *)
Definition loaded_once (p : Process) : Prop :=
  agents p = [mkAgent true 0] /\
  exit_listeners p = [0%nat] /\
  is_Some (module_cache p).

(** *** Histories of calls *)

(** The query texts that the query calls among [acts] hand to the
    client, call by call. *)
Definition queries_of (env : Env) (acts : list Action) : list string :=
  flat_map (fun a =>
              match a with
              | Invoke (CallQueryData query) => [query]
              | Invoke (CallQueryLatestDataPoint metric) => [latest_query env metric]
              | _ => []
              end) acts.

(** An action that is not a latest-point lookup and, if it is a write,
    brings only elements the client accepts. *)
Definition quiet (env : Env) (a : Action) : Prop :=
  match a with
  | Invoke (CallWriteData points) => Forall (no_fault env) points
  | Invoke (CallQueryLatestDataPoint _) => False
  | _ => True
  end.

(** The client is the one the module body built on agent 0. *)
Definition client_as_built (env : Env) (w : World) : Prop :=
  influx w = mkInfluxDB (influxUrl env) (influxToken env) 0.

(** The write API runs on the client's defaults. *)
Definition on_defaults (env : Env) (w : World) : Prop :=
  options (writeApi w) = DEFAULT_WriteOptions env.

(** What an action does to the state of the loaded module. *)
Definition advance (env : Env) (a : Action) (w : World) : World :=
  match a with
  | Require => w
  | Invoke c => perform env c w
  | TimerFires => with_writeApi (timer_fires (writeApi w)) w
  end.

(** What the module's state of a process says, or [fallback] before the
    module is loaded. *)
Definition of_module {A : Type} (f : World -> A) (fallback : A) (p : Process) : A :=
  match module_cache p with
  | Some w => f w
  | None => fallback
  end.

(** *** The latest-point query, as the specification words it

    "A fixed query template restricted to a 1-hour lookback window,
    filtered to the given measurement name, requesting only the most
    recent point": a Flux pipeline over the bucket with these three
    stages. *)

Inductive FluxStage : Type :=
| RangeFrom (start : string)              (* range(start: ...) *)
| MeasurementEquals (name : string)       (* filter on r._measurement *)
| LastPoint.                              (* last() *)

Record FluxQuery : Type := mkFluxQuery {
  bucket : string;
  stages : list FluxStage
}.

Definition spec_latest_query (bucket metric : string) : FluxQuery :=
  {| bucket := bucket;
     stages := [RangeFrom "-1h"; MeasurementEquals metric; LastPoint] |}.

(** *** The text around the metric, and Flux string literals *)

(** The template up to and including the double quote that opens the
    measurement literal, and from the double quote that is meant to close
    it. *)
Definition query_before_metric (env : Env) : string :=
  newline +:+
  "    from(bucket: " +:+ dquote +:+ influxBucket env +:+ dquote +:+ ")"
    +:+ newline +:+
  "      |> range(start: -1h)" +:+ newline +:+
  "      |> filter(fn: (r) => r._measurement == " +:+ dquote.

Definition query_after_literal : string :=
  ")" +:+ newline +:+ "      |> last()" +:+ newline +:+ "  ".

Definition query_after_metric : string := dquote +:+ query_after_literal.

Definition dquote_char : ascii := "034"%char.
Definition backslash_char : ascii := "092"%char.

(** Reading a Flux string literal whose opening double quote has been
    consumed: the body runs to the first double quote that is not escaped
    by a backslash; the result is the body and the text after the closing
    quote, or [None] when the literal is not closed. *)
Fixpoint literal_body (s : string) : option (string * string) :=
  match s with
  | EmptyString => None
  | String c rest =>
      if Ascii.eqb c dquote_char then Some (EmptyString, rest)
      else if Ascii.eqb c backslash_char then
        match rest with
        | EmptyString => None
        | String c' rest' =>
            match literal_body rest' with
            | Some (body, after) => Some (String c (String c' body), after)
            | None => None
            end
        end
      else
        match literal_body rest with
        | Some (body, after) => Some (String c body, after)
        | None => None
        end
  end.

(** No double quote and no backslash. *)
Fixpoint plain (s : string) : bool :=
  match s with
  | EmptyString => true
  | String c rest =>
      negb (Ascii.eqb c dquote_char) && negb (Ascii.eqb c backslash_char)
      && plain rest
  end.

(** *** Reading Flux text

    A reader for the part of Flux the template uses: white space between
    tokens is free, a pipeline is [from(bucket: "...")] followed by stages
    introduced by [|>], and a stage is [range(start: d)], a filter on
    [r._measurement == "..."], or [last()].  A string literal is read
    only when it is a constant: a literal with an escape or an
    interpolation [${...}] is not read.  The reader gives [None] for
    anything else. *)

Definition is_space (c : ascii) : bool :=
  Ascii.eqb c " "%char || Ascii.eqb c "010"%char
  || Ascii.eqb c "009"%char || Ascii.eqb c "013"%char.

Fixpoint skip_space (s : string) : string :=
  match s with
  | EmptyString => EmptyString
  | String c rest => if is_space c then skip_space rest else s
  end.

(** [s] without the leading [word], when it starts with it. *)
Fixpoint expect (word s : string) : option string :=
  match word with
  | EmptyString => Some s
  | String c word' =>
      match s with
      | EmptyString => None
      | String d s' => if Ascii.eqb c d then expect word' s' else None
      end
  end.

(** A dollar sign followed by an opening brace occurs in [s]. *)
Fixpoint has_interpolation (s : string) : bool :=
  match s with
  | EmptyString => false
  | String c rest =>
      match rest with
      | String d _ =>
          (Ascii.eqb c "$"%char && Ascii.eqb d "{"%char) || has_interpolation rest
      | EmptyString => false
      end
  end.

(** Text that stands for itself inside a Flux string literal: no double
    quote, no backslash, no interpolation. *)
Definition constant_text (s : string) : bool :=
  plain s && negb (has_interpolation s).

(** A constant string literal: its value and the text after it. *)
Definition read_literal (s : string) : option (string * string) :=
  match expect dquote s with
  | None => None
  | Some s' =>
      match literal_body s' with
      | None => None
      | Some (body, rest) =>
          if constant_text body then Some (body, rest) else None
      end
  end.

(** The characters up to the next white space or closing parenthesis. *)
Fixpoint read_word (s : string) : string * string :=
  match s with
  | EmptyString => (EmptyString, EmptyString)
  | String c rest =>
      if is_space c || Ascii.eqb c ")"%char then (EmptyString, s)
      else let (word, after) := read_word rest in (String c word, after)
  end.

Definition read_range (s : string) : option (FluxStage * string) :=
  match expect "range(" s with
  | None => None
  | Some s1 =>
      match expect "start:" (skip_space s1) with
      | None => None
      | Some s2 =>
          let (start, s3) := read_word (skip_space s2) in
          match expect ")" (skip_space s3) with
          | None => None
          | Some s4 => Some (RangeFrom start, s4)
          end
      end
  end.

Definition read_filter (s : string) : option (FluxStage * string) :=
  match expect "filter(" s with
  | None => None
  | Some s1 =>
  match expect "fn:" (skip_space s1) with
  | None => None
  | Some s2 =>
  match expect "(r)" (skip_space s2) with
  | None => None
  | Some s3 =>
  match expect "=>" (skip_space s3) with
  | None => None
  | Some s4 =>
  match expect "r._measurement" (skip_space s4) with
  | None => None
  | Some s5 =>
  match expect "==" (skip_space s5) with
  | None => None
  | Some s6 =>
  match read_literal (skip_space s6) with
  | None => None
  | Some (name, s7) =>
  match expect ")" (skip_space s7) with
  | None => None
  | Some s8 => Some (MeasurementEquals name, s8)
  end end end end end end end end.

Definition read_last (s : string) : option (FluxStage * string) :=
  match expect "last()" s with
  | None => None
  | Some s1 => Some (LastPoint, s1)
  end.

Definition read_stage (s : string) : option (FluxStage * string) :=
  match read_range s with
  | Some r => Some r
  | None =>
      match read_filter s with
      | Some r => Some r
      | None => read_last s
      end
  end.

(** The stages up to the end of the text; every stage takes at least one
    character, so the length of the text is fuel enough. *)
Fixpoint read_stages (fuel : nat) (s : string) : option (list FluxStage) :=
  match skip_space s with
  | EmptyString => Some []
  | String _ _ =>
      match fuel with
      | O => None
      | S fuel' =>
          match expect "|>" (skip_space s) with
          | None => None
          | Some s1 =>
              match read_stage (skip_space s1) with
              | None => None
              | Some (stage, s2) =>
                  match read_stages fuel' s2 with
                  | None => None
                  | Some more => Some (stage :: more)
                  end
              end
          end
      end
  end.

Definition read_flux (text : string) : option FluxQuery :=
  match expect "from(" (skip_space text) with
  | None => None
  | Some s1 =>
  match expect "bucket:" (skip_space s1) with
  | None => None
  | Some s2 =>
  match read_literal (skip_space s2) with
  | None => None
  | Some (name, s3) =>
  match expect ")" (skip_space s3) with
  | None => None
  | Some s4 =>
  match read_stages (String.length text) s4 with
  | None => None
  | Some pipeline => Some {| bucket := name; stages := pipeline |}
  end end end end end.

(** The claim about the query, for one metric and one world: the call
    issues one text, and that text reads as the pipeline of the
    specification over the configured bucket. *)
Definition issues_latest_pipeline (env : Env) (metric : string) (w : World) : Prop :=
  exists p w' text,
    queryLatestDataPoint env metric w = (Normal p, w') /\
    issued w' = issued w ++ [text] /\
    read_flux text = Some (spec_latest_query (influxBucket env) metric).

(** *** Time values of doubles, as ECMAScript words TimeClip

    The double [x] has magnitude [n / d] for the integers below.  "If
    time is not finite, return NaN.  If abs(time) > 8.64e15, return NaN.
    Return the integer part of time": [t] is NaN in the first two cases,
    and otherwise the whole number [k] of milliseconds with
    [k <= n / d < k + 1], with the sign of [x]. *)

Definition numerator (m : positive) (e : Z) : Z := Z.pos m * 2 ^ Z.max 0 e.
Definition denominator (e : Z) : Z := 2 ^ Z.max 0 (- e).

Definition time_of_double (x : spec_float) (t : TimeValue) : Prop :=
  match x with
  | S754_zero _ => t = Ms 0
  | S754_infinity _ => t = NaN
  | S754_nan => t = NaN
  | S754_finite sign m e =>
      let n := numerator m e in
      let d := denominator e in
      (max_time * d < n -> t = NaN) /\
      (n <= max_time * d ->
       exists k, k * d <= n < (k + 1) * d /\
                 t = Ms (if sign then - k else k))
  end.

(** *** Success of a call *)

(** The call returns a promise that ends up fulfilled. *)
Definition succeeds {A : Type} (call : M (Promise A)) (w : World) : Prop :=
  exists p w' a w'',
    call w = (Normal p, w') /\ settle p w' = (Fulfilled a, w'').

(** ** Sample environments *)

Module Demo.

(** The defaults the client library ships. *)
Definition defaults : WriteOptions :=
  {| batchSize := 1000; flushInterval := 60000;
     maxBufferLines := 32000; maxRetries := 5 |}.

Definition unavailable : JsError :=
  mkError "HttpError" "503 Service Unavailable".

Definition unnamed : JsError :=
  mkError "Error" "measurement name is missing".

Definition btc : Point :=
  {| measurement := "price";
     tags := {[ "symbol" := "BTC"; "interval" := "1m" ]};
     fields := {[ "close" := VNumber (S754_finite false 42000 0) ]};
     time := 1704067200000000000 |}.

Definition eth : Point :=
  {| measurement := "price";
     tags := {[ "symbol" := "ETH"; "interval" := "1m" ]};
     fields := {[ "close" := VNumber (S754_finite false 2300 0) ]};
     time := 1704067200000000000 |}.

Definition nameless : Point :=
  {| measurement := EmptyString; tags := ∅; fields := ∅; time := 0 |}.

Definition refuse_nameless (p : Point) : option JsError :=
  if decide (measurement p = EmptyString) then Some unnamed else None.

Definition btc_row : Row :=
  {[ "_time" := VString "2024-01-01T00:00:00Z";
     "_measurement" := VString "price";
     "symbol" := VString "BTC";
     "interval" := VString "1m" ]}.

(** A row with a time the runtime cannot parse and no tags. *)
Definition odd_row : Row :=
  {[ "_time" := VString "yesterday"; "_measurement" := VString "price" ]}.

Definition parse (s : string) : TimeValue :=
  if decide (s = "2024-01-01T00:00:00Z") then Ms 1704067200000 else NaN.

Definition env_with (write_reply : Reply unit) (query_reply : Reply (list Row))
  : Env :=
  {| influxUrl := "http://localhost:8086";
     influxToken := "secret";
     influxOrg := "pulse";
     influxBucket := "crypto";
     DEFAULT_WriteOptions := defaults;
     point_fault := refuse_nameless;
     transport := fun _ _ => write_reply;
     store := fun _ _ => query_reply;
     Date_parse := parse |}.

Definition healthy : Env :=
  env_with (mkReply 2 (Fulfilled tt)) (mkReply 3 (Fulfilled [btc_row])).

Definition store_down : Env :=
  env_with (mkReply 2 (Rejected unavailable)) (mkReply 3 (Rejected unavailable)).

Definition no_data : Env :=
  env_with (mkReply 2 (Fulfilled tt)) (mkReply 3 (Fulfilled [])).

Definition odd_data : Env :=
  env_with (mkReply 2 (Fulfilled tt)) (mkReply 3 (Fulfilled [odd_row; btc_row])).

(** The module's state right after it was loaded. *)
Definition fresh (env : Env) : World := module_state env 0.

(** The module's state in a process that has written and queried. *)
Definition after_two_calls : World :=
  default (fresh healthy)
    (module_cache
       (run healthy
          [Invoke (CallWriteData [btc; eth]);
           Invoke (CallQueryLatestDataPoint "price")]
          start)).

(** A process that writes (once with an element the client refuses),
    queries, requires the module again and sees the timer fire. *)
Definition rough_day : list Action :=
  [Invoke (CallWriteData [btc; nameless; eth]);
   TimerFires;
   Invoke (CallQueryLatestDataPoint "price");
   Require;
   Invoke (CallQueryData "buckets()");
   Invoke (CallWriteData [eth])].

Definition after_rough_day : World :=
  default (fresh healthy) (module_cache (run healthy rough_day start)).

(** Writes and raw queries while the transport and the store reject
    everything. *)
Definition outage : list Action :=
  [Invoke (CallWriteData [btc; eth]);
   Invoke (CallQueryData "buckets()");
   TimerFires;
   Invoke (CallWriteData [eth])].

Definition after_outage : World :=
  default (fresh store_down) (module_cache (run store_down outage start)).

(** A metric that closes the measurement literal and the filter, and
    opens a second filter. *)
Definition sneaky_metric : string :=
  "x" +:+ dquote +:+ ") |> filter(fn: (r) => r._measurement == " +:+ dquote
    +:+ "y".

(** A row whose time is a number of milliseconds, half a millisecond
    past 2024-01-01T00:00:00Z. *)
Definition numeric_row : Row :=
  {[ "_time" := VNumber (S754_finite false 3408134400001 (-1));
     "symbol" := VString "BTC";
     "interval" := VString "1m" ]}.

Definition numeric_data : Env :=
  env_with (mkReply 2 (Fulfilled tt)) (mkReply 3 (Fulfilled [numeric_row])).

(** The module's state, with the transport down, after a write in which
    the client refused the second element. *)
Definition after_refusal : World :=
  default (fresh store_down)
    (module_cache
       (run store_down [Invoke (CallWriteData [btc; nameless; eth])] start)).

(** A metric that closes the measurement literal and widens the
    filter. *)
Definition crafted_metric : string :=
  "price" +:+ dquote +:+ " or r._measurement != " +:+ dquote.

End Demo.

(** * Properties *)

(** ** The write buffer *)

Section WriteBufferFacts.

Lemma accepted_send why api : accepted (send why api) = accepted api.
Proof.
  unfold accepted, send; simpl.
  rewrite map_app, concat_app; simpl.
  now rewrite !app_nil_r.
Qed.

Lemma accepted_add p api : accepted (add p api) = accepted api ++ [p].
Proof.
  unfold add.
  match goal with |- context [if ?c then _ else _] => destruct c end.
  - rewrite accepted_send. unfold accepted; simpl. now rewrite app_assoc.
  - unfold accepted; simpl. now rewrite app_assoc.
Qed.

Lemma accepted_enqueue points api :
  accepted (foldl (fun a p => add p a) api points) = accepted api ++ points.
Proof.
  revert api; induction points as [|p points IH]; intros api; simpl.
  - now rewrite app_nil_r.
  - rewrite IH, accepted_add, <- app_assoc. reflexivity.
Qed.

Lemma flush_calls_send why api : flush_calls (send why api) = flush_calls api.
Proof. reflexivity. Qed.

Lemma flush_calls_add p api : flush_calls (add p api) = flush_calls api.
Proof.
  unfold add.
  match goal with |- context [if ?c then _ else _] => destruct c end;
    reflexivity.
Qed.

Lemma flush_calls_enqueue points api :
  flush_calls (foldl (fun a p => add p a) api points) = flush_calls api.
Proof.
  revert api; induction points as [|p points IH]; intros api; simpl.
  - reflexivity.
  - now rewrite IH, flush_calls_add.
Qed.

End WriteBufferFacts.

(** ** [writeData] *)

Section WriteDataFacts.

Context (env : Env).

(** When the client accepts every point, [writePoints] returns normally
    and has added them one after the other. *)
Lemma writePoints_accepts points w :
  Forall (no_fault env) points ->
  writePoints env points w
  = (Normal tt, with_writeApi (enqueue points (writeApi w)) w).
Proof.
  intros Hok; revert w.
  induction Hok as [|p points Hp _ IH]; intros w; simpl.
  - destruct w; reflexivity.
  - rewrite Hp. unfold bind at 1. rewrite IH. reflexivity.
Qed.

(** When the client refuses a point, [writePoints] throws its error
    after adding the points before it. *)
Lemma writePoints_refuses accepted_points p rest e w :
  Forall (no_fault env) accepted_points ->
  point_fault env p = Some e ->
  writePoints env (accepted_points ++ p :: rest) w
  = (Throw e, with_writeApi (enqueue accepted_points (writeApi w)) w).
Proof.
  intros Hok Hp; revert w.
  induction Hok as [|q qs Hq _ IH]; intros w; simpl.
  - rewrite Hp. destruct w; reflexivity.
  - rewrite Hq. unfold bind at 1. rewrite IH. reflexivity.
Qed.

(** With every point accepted, [writeData] is the flush of the world in
    which the points have been added: the [catch] block is not
    entered. *)
Lemma writeData_is_flush points w :
  Forall (no_fault env) points ->
  writeData env points w
  = flush env (with_writeApi (enqueue points (writeApi w)) w).
Proof.
  intros Hok. unfold writeData, async, try_catch, bind.
  rewrite (writePoints_accepts _ _ Hok).
  unfold flush; simpl.
  destruct (buffer (enqueue points (writeApi w))); reflexivity.
Qed.

End WriteDataFacts.

Section WriteDataClaims.

Context (env : Env).

(** C5.  When the client accepts every point, a single [writeData] call
    adds the points to the write buffer in exactly the order supplied,
    then requests one flush, and returns that flush's promise: it is
    fulfilled at once when nothing is left to send, and otherwise is
    pending until the transport has answered, and then has the
    transport's outcome. *)
Theorem writeData_enqueues_in_order_then_flushes points w :
  Forall (no_fault env) points ->
  let w1 := with_writeApi (enqueue points (writeApi w)) w in
  exists promise w',
    writeData env points w = (Normal promise, w') /\
    accepted (writeApi w1) = accepted (writeApi w) ++ points /\
    flush env w1 = (Normal promise, w') /\
    flush_calls (writeApi w') = S (flush_calls (writeApi w)) /\
    buffer (writeApi w') = [] /\
    accepted (writeApi w') = accepted (writeApi w) ++ points /\
    match buffer (writeApi w1) with
    | [] => promise = PSettled (Fulfilled tt)
    | batch =>
        let reply := transport env (length (sent (writeApi w1))) batch in
        forall t,
          poll t promise w'
          = (if (ready reply <=? t)%nat then Some (outcome reply) else None, w')
    end.
Proof.
  intros Hok w1.
  pose proof (writeData_is_flush env points w Hok) as Hwd.
  pose proof (accepted_enqueue points (writeApi w)) as Hacc.
  pose proof (flush_calls_enqueue points (writeApi w)) as Hcalls.
  fold (enqueue points (writeApi w)) in Hacc, Hcalls.
  subst w1. unfold flush in *. simpl in *.
  destruct (buffer (enqueue points (writeApi w))) as [|p batch] eqn:Hbuf.
  - eexists _, _. split; [exact Hwd|]. split; [exact Hacc|].
    split; [reflexivity|]. simpl.
    split; [now rewrite Hcalls|]. split; [reflexivity|].
    split; [|reflexivity].
    rewrite <- Hacc. unfold accepted; simpl. now rewrite Hbuf.
  - eexists _, _. split; [exact Hwd|]. split; [exact Hacc|].
    split; [reflexivity|]. simpl.
    split; [now rewrite Hcalls|]. split; [reflexivity|].
    split.
    + rewrite <- Hacc. unfold accepted; simpl.
      rewrite map_app, concat_app, Hbuf; simpl. now rewrite !app_nil_r.
    + intros t. unfold poll; simpl.
      destruct (ready _ <=? t)%nat; reflexivity.
Qed.

(** C7, amended.  With nothing left in the write buffer, [writeData] of
    the empty sequence returns an already fulfilled promise: the flush
    sends no batch, and nothing is logged. *)
Theorem writeData_empty_succeeds w :
  buffer (writeApi w) = [] ->
  exists w',
    writeData env [] w = (Normal (PSettled (Fulfilled tt)), w') /\
    sent (writeApi w') = sent (writeApi w) /\
    buffer (writeApi w') = [] /\
    log w' = log w.
Proof.
  intros Hempty.
  unfold writeData, async, try_catch, bind, flush; simpl.
  rewrite Hempty.
  eexists; repeat split; simpl; assumption.
Qed.

End WriteDataClaims.

(** ** Strings *)

Section StringFacts.

Lemma append_cons (x : ascii) (a b : string) :
  String x a +:+ b = String x (a +:+ b).
Proof. reflexivity. Qed.

Lemma append_assoc (a b c : string) : (a +:+ b) +:+ c = a +:+ (b +:+ c).
Proof.
  induction a as [|x a IH]; [reflexivity|].
  now rewrite !append_cons, IH.
Qed.

Lemma append_empty_r (a : string) : a +:+ EmptyString = a.
Proof.
  induction a as [|x a IH]; [reflexivity|].
  now rewrite append_cons, IH.
Qed.

(** A literal whose body is plain text ends at the first double quote
    that follows it. *)
Lemma literal_body_plain (body after : string) :
  plain body = true ->
  literal_body (body +:+ dquote +:+ after) = Some (body, after).
Proof.
  induction body as [|c body IH]; intros Hplain.
  - reflexivity.
  - simpl in Hplain.
    apply andb_prop in Hplain as [Hc Hplain].
    apply andb_prop in Hc as [Hq Hb].
    apply negb_true_iff in Hq, Hb.
    rewrite append_cons; simpl.
    rewrite Hq, Hb, (IH Hplain). reflexivity.
Qed.

End StringFacts.

(** ** The query of [queryLatestDataPoint] *)

Section QueryText.

Context (env : Env).

(** The metric sits between two texts that do not depend on it. *)
Lemma latest_query_split metric :
  latest_query env metric
  = query_before_metric env +:+ metric +:+ query_after_metric.
Proof.
  unfold latest_query, query_before_metric, query_after_metric,
    query_after_literal.
  rewrite !append_assoc. reflexivity.
Qed.

End QueryText.

(** ** [queryData] and [queryLatestDataPoint] *)

Section QueryFacts.

Context (env : Env).

(** [queryData] issues the query and hands back the store's reply as it
    is: no reaction is attached, so settling it changes nothing. *)
Lemma queryData_passes_through query w :
  exists p w',
    queryData env query w = (Normal p, w') /\
    issued w' = issued w ++ [query] /\
    log w' = log w /\
    settle_time p = ready (store env (length (issued w)) query) /\
    settle p w' = (outcome (store env (length (issued w)) query), w').
Proof. eexists _, _. repeat split. Qed.

(** [queryLatestDataPoint] always returns a promise; it has issued the
    template query; the promise settles when the store replies, and how
    it settles is decided by the reply alone. *)
Lemma queryLatestDataPoint_settles metric w :
  exists p w',
    queryLatestDataPoint env metric w = (Normal p, w') /\
    issued w' = issued w ++ [latest_query env metric] /\
    log w' = log w /\
    settle_time p = ready (latest_reply env metric w) /\
    settle p w' =
      match outcome (latest_reply env metric w) with
      | Fulfilled (row :: _) => (Fulfilled (latest_of_row env row), w')
      | Fulfilled [] =>
          (Rejected (TypeError_read_undefined "_time"),
           logged (latest_failure_entry metric
                     (TypeError_read_undefined "_time")) w')
      | Rejected e =>
          (Rejected e, logged (latest_failure_entry metric e) w')
      end.
Proof.
  eexists _, _. split; [reflexivity|].
  split; [reflexivity|]. split; [reflexivity|]. split; [reflexivity|].
  unfold latest_reply; simpl.
  destruct (outcome (store env (length (issued w)) (latest_query env metric)))
    as [[|row rest]|e]; reflexivity.
Qed.

End QueryFacts.

Section ReaderFacts.

Lemma append_nil_l (s : string) : EmptyString +:+ s = s.
Proof. reflexivity. Qed.

Lemma read_literal_constant (value after : string) :
  constant_text value = true ->
  read_literal (String "034"%char (value +:+ String "034"%char after))
  = Some (value, after).
Proof.
  intros Hconstant. unfold read_literal; simpl.
  assert (Hplain : plain value = true).
  { unfold constant_text in Hconstant.
    now apply andb_prop in Hconstant as [H _]. }
  rewrite (literal_body_plain value after Hplain
           : literal_body (value +:+ String "034"%char after) = _).
  now rewrite Hconstant.
Qed.

Lemma read_stages_end fuel s :
  skip_space s = EmptyString -> read_stages fuel s = Some [].
Proof. intros H. destruct fuel; cbn [read_stages]; now rewrite H. Qed.

Lemma read_stages_step fuel s c r s1 stage s2 more :
  skip_space s = String c r ->
  expect "|>" (String c r) = Some s1 ->
  read_stage (skip_space s1) = Some (stage, s2) ->
  read_stages fuel s2 = Some more ->
  read_stages (S fuel) s = Some (stage :: more).
Proof.
  intros Hs H1 H2 H3. cbn [read_stages]. now rewrite Hs, H1, H2, H3.
Qed.

Lemma read_flux_steps text s1 s2 name s3 s4 pipeline :
  expect "from(" (skip_space text) = Some s1 ->
  expect "bucket:" (skip_space s1) = Some s2 ->
  read_literal (skip_space s2) = Some (name, s3) ->
  expect ")" (skip_space s3) = Some s4 ->
  read_stages (String.length text) s4 = Some pipeline ->
  read_flux text = Some {| bucket := name; stages := pipeline |}.
Proof.
  intros H1 H2 H3 H4 H5. unfold read_flux. now rewrite H1, H2, H3, H4, H5.
Qed.

Lemma read_flux_latest_query env metric :
  constant_text (influxBucket env) = true ->
  constant_text metric = true ->
  read_flux (latest_query env metric)
  = Some (spec_latest_query (influxBucket env) metric).
Proof.
  intros Hbucket Hmetric.
  unfold latest_query, newline, dquote, spec_latest_query.
  rewrite !append_cons, !append_nil_l.
  eapply read_flux_steps.
  - reflexivity.
  - reflexivity.
  - simpl. apply (read_literal_constant _ _ Hbucket).
  - reflexivity.
  - simpl String.length.
    eapply read_stages_step.
    + reflexivity.
    + reflexivity.
    + reflexivity.
    + eapply read_stages_step.
      * reflexivity.
      * reflexivity.
      * unfold read_stage, read_range, read_filter. simpl.
        rewrite (read_literal_constant _ _ Hmetric). reflexivity.
      * eapply read_stages_step.
        -- reflexivity.
        -- reflexivity.
        -- reflexivity.
        -- apply read_stages_end. reflexivity.
Qed.

(** The time value [TimeClip] computes for a double is the one
    ECMAScript words. *)
Lemma TimeClip_time_of_double x : time_of_double x (TimeClip x).
Proof.
  destruct x as [s|s| |sign m e]; try reflexivity.
  unfold time_of_double, TimeClip, numerator, denominator.
  destruct (Z.leb_spec 0 e) as [He|He].
  - rewrite (Z.max_r 0 e), (Z.max_l 0 (- e)) by lia.
    rewrite Z.pow_0_r, !Z.mul_1_r.
    destruct (Z.ltb_spec max_time (Z.pos m * 2 ^ e)) as [Hbeyond|Hin];
      split; intros H; try lia; try reflexivity.
    exists (Z.pos m * 2 ^ e). split; [lia | reflexivity].
  - rewrite (Z.max_l 0 e), (Z.max_r 0 (- e)) by lia.
    rewrite Z.pow_0_r, Z.mul_1_r.
    assert (Hd : 0 < 2 ^ (- e)) by (apply Z.pow_pos_nonneg; lia).
    destruct (Z.ltb_spec (max_time * 2 ^ (- e)) (Z.pos m)) as [Hbeyond|Hin];
      split; intros H; try lia; try reflexivity.
    exists (Z.pos m / 2 ^ (- e)). split; [|reflexivity]. split.
    + rewrite Z.mul_comm. apply Z.mul_div_le. exact Hd.
    + rewrite Z.mul_comm. apply Z.mul_succ_div_gt. exact Hd.
Qed.

End ReaderFacts.

Section QueryClaims.

Context (env : Env).

(** C6, amended.  For a bucket and a metric that are constant text (no
    double quote, no backslash, no interpolation), the one text that
    [queryLatestDataPoint] issues reads as the pipeline of the
    specification: the bucket, a range starting one hour back, a filter
    on the measurement being the metric, and the last point.  For every
    metric the call issues the template text, whatever the store
    answers; and when the store answers with at least one row, the
    promise is fulfilled with the first row's [symbol] and [interval] as
    they are and its [_time] as a time value: what [Date.parse] makes of
    a string, and of a number its whole milliseconds, or NaN beyond
    8.64e15. *)
Theorem queryLatestDataPoint_returns_first_row metric w :
  (constant_text (influxBucket env) = true ->
   constant_text metric = true ->
   issues_latest_pipeline env metric w) /\
  exists p w',
    queryLatestDataPoint env metric w = (Normal p, w') /\
    issued w' = issued w ++ [latest_query env metric] /\
    forall row rest,
      outcome (latest_reply env metric w) = Fulfilled (row :: rest) ->
      exists point,
        settle p w' = (Fulfilled point, w') /\
        point
        = {| timestamp := Date_getTime (Date_parse env) (get_property row "_time");
             symbol := get_property row "symbol";
             interval := get_property row "interval" |} /\
        (forall s, row !! "_time" = Some (VString s) ->
           timestamp point = Date_parse env s) /\
        (forall x, row !! "_time" = Some (VNumber x) ->
           time_of_double x (timestamp point)) /\
        (forall v, row !! "symbol" = Some v -> symbol point = v) /\
        (forall v, row !! "interval" = Some v -> interval point = v).
Proof.
  destruct (queryLatestDataPoint_settles env metric w)
    as (p & w' & Hcall & Hissued & _ & _ & Hsettle).
  split.
  - intros Hbucket Hmetric.
    exists p, w', (latest_query env metric).
    split; [exact Hcall|]. split; [exact Hissued|].
    now apply read_flux_latest_query.
  - exists p, w'. split; [exact Hcall|]. split; [exact Hissued|].
    intros row rest Hreply. rewrite Hreply in Hsettle.
    exists (latest_of_row env row). split; [exact Hsettle|].
    split; [reflexivity|].
    unfold latest_of_row, get_property; simpl.
    repeat split.
    + intros s Hrow; now rewrite Hrow.
    + intros x Hrow; rewrite Hrow; simpl. apply TimeClip_time_of_double.
    + intros v Hrow; now rewrite Hrow.
    + intros v Hrow; now rewrite Hrow.
Qed.

(** C10.  Whatever the first row of a non-empty result looks like, the
    promise is fulfilled and nothing is logged: a missing [symbol] or
    [interval] comes back as [undefined], and a missing [_time], or one
    that [Date.parse] cannot read, as NaN. *)
Theorem queryLatestDataPoint_accepts_any_first_row metric w row rest :
  outcome (latest_reply env metric w) = Fulfilled (row :: rest) ->
  exists p w' point,
    queryLatestDataPoint env metric w = (Normal p, w') /\
    settle p w' = (Fulfilled point, w') /\
    log w' = log w /\
    (row !! "symbol" = None -> symbol point = VUndefined) /\
    (row !! "interval" = None -> interval point = VUndefined) /\
    (row !! "_time" = None -> timestamp point = NaN) /\
    (forall s, row !! "_time" = Some (VString s) ->
       Date_parse env s = NaN -> timestamp point = NaN).
Proof.
  intros Hreply.
  destruct (queryLatestDataPoint_settles env metric w)
    as (p & w' & Hcall & _ & Hlog & _ & Hsettle).
  rewrite Hreply in Hsettle.
  exists p, w', (latest_of_row env row).
  split; [exact Hcall|]. split; [exact Hsettle|]. split; [exact Hlog|].
  unfold latest_of_row, get_property; simpl.
  repeat split.
  - intros Hrow; now rewrite Hrow.
  - intros Hrow; now rewrite Hrow.
  - intros Hrow; now rewrite Hrow.
  - intros s Hrow Hnan; now rewrite Hrow.
Qed.

(** C1, as the code has it.  When the store answers with no row, the
    [then] callback reads [_time] of [undefined]: the promise is
    rejected with that TypeError, which the [catch] handler logs, and
    not with an error of its own for the empty result. *)
Theorem queryLatestDataPoint_empty_result_is_TypeError metric w :
  outcome (latest_reply env metric w) = Fulfilled [] ->
  exists p w' e,
    queryLatestDataPoint env metric w = (Normal p, w') /\
    settle p w' = (Rejected e, logged (latest_failure_entry metric e) w') /\
    e = TypeError_read_undefined "_time" /\
    name e = "TypeError" /\
    name e <> "EmptyResultError".
Proof.
  intros Hreply.
  destruct (queryLatestDataPoint_settles env metric w)
    as (p & w' & Hcall & _ & _ & _ & Hsettle).
  rewrite Hreply in Hsettle.
  exists p, w', (TypeError_read_undefined "_time").
  repeat split; try assumption. discriminate.
Qed.

(** C9.  The query that [queryLatestDataPoint] issues is the template
    with the metric put in as it is.  Read as Flux, the measurement
    literal is the metric when the metric is plain text; when the metric
    holds a double quote, the literal ends there and the rest of the
    metric is read as query text. *)
Theorem queryLatestDataPoint_splices_metric_verbatim metric w :
  (exists p w',
      queryLatestDataPoint env metric w = (Normal p, w') /\
      issued w'
      = issued w ++ [query_before_metric env +:+ metric +:+ query_after_metric]) /\
  (plain metric = true ->
     literal_body (metric +:+ query_after_metric)
     = Some (metric, query_after_literal)) /\
  (forall head tail,
     plain head = true ->
     metric = head +:+ dquote +:+ tail ->
     literal_body (metric +:+ query_after_metric)
     = Some (head, tail +:+ query_after_metric)).
Proof.
  split; [|split].
  - destruct (queryLatestDataPoint_settles env metric w)
      as (p & w' & Hcall & Hissued & _).
    exists p, w'. split; [exact Hcall|].
    now rewrite <- latest_query_split.
  - intros Hplain. unfold query_after_metric.
    now apply literal_body_plain.
  - intros head tail Hplain ->.
    rewrite !append_assoc.
    now apply literal_body_plain.
Qed.

End QueryClaims.

(** ** Logging of failures *)

Section LoggingFacts.

Lemma mentions_suffix (before detail : string) :
  mentions (before +:+ detail) detail.
Proof.
  exists before, EmptyString. now rewrite append_empty_r.
Qed.

Lemma mentions_inside (before detail after : string) :
  mentions (before +:+ detail +:+ after) detail.
Proof. now exists before, after. Qed.

End LoggingFacts.

Section LoggingClaims.

Context (env : Env).

(** C2, as the code has it.  When every point is accepted and the
    transport rejects the flushed batch, [writeData]'s promise is
    rejected with the transport's error and [flush] has been called
    once, but the log is what it was: the [catch] block of [writeData]
    does not see the rejection of the promise it returns. *)
Theorem writeData_flush_rejection_is_not_logged points w e :
  Forall (no_fault env) points ->
  let w1 := with_writeApi (enqueue points (writeApi w)) w in
  buffer (writeApi w1) <> [] ->
  outcome (transport env (length (sent (writeApi w1))) (buffer (writeApi w1)))
  = Rejected e ->
  exists promise w',
    writeData env points w = (Normal promise, w') /\
    settle promise w' = (Rejected e, w') /\
    log w' = log w /\
    flush_calls (writeApi w') = S (flush_calls (writeApi w)) /\
    sent (writeApi w')
    = sent (writeApi w1) ++ [mkBatch (buffer (writeApi w1)) Explicit].
Proof.
  intros Hok w1 Hbuf Hreply.
  pose proof (writeData_is_flush env points w Hok) as Hwd.
  pose proof (flush_calls_enqueue points (writeApi w)) as Hcalls.
  fold (enqueue points (writeApi w)) in Hcalls.
  subst w1. unfold flush in Hwd. simpl in *.
  destruct (buffer (enqueue points (writeApi w))) as [|p batch];
    [contradiction|].
  eexists _, _. split; [exact Hwd|]. simpl.
  rewrite Hreply, Hcalls. repeat split.
Qed.

(** C4, amended.  Every failure of [queryLatestDataPoint] leaves one log
    entry naming the metric and the error's message before the promise
    is rejected with that error; a failure thrown while [writeData]
    enqueues leaves one entry with the error's message before the
    promise is rejected with it; [queryData] itself logs nothing and
    settles exactly as the store's reply does. *)
Theorem failures_logged_where_handled :
  (forall metric w p w' e w'',
      queryLatestDataPoint env metric w = (Normal p, w') ->
      settle p w' = (Rejected e, w'') ->
      log w'' = log w ++ [latest_failure_entry metric e] /\
      mentions (latest_failure_entry metric e) metric /\
      mentions (latest_failure_entry metric e) (message e)) /\
  (forall before p after e w,
      Forall (no_fault env) before ->
      point_fault env p = Some e ->
      exists w',
        writeData env (before ++ p :: after) w
        = (Normal (PSettled (Rejected e)), w') /\
        log w' = log w ++ [write_failure_entry e] /\
        mentions (write_failure_entry e) (message e)) /\
  (forall query w p w' s w'',
      queryData env query w = (Normal p, w') ->
      settle p w' = (s, w'') ->
      s = outcome (store env (length (issued w)) query) /\
      log w'' = log w).
Proof.
  split; [|split].
  - intros metric w p w' e w'' Hcall Hsettle.
    destruct (queryLatestDataPoint_settles env metric w)
      as (p0 & w0 & Hcall0 & _ & Hlog & _ & Hsettle0).
    rewrite Hcall in Hcall0. inversion Hcall0; subst p0 w0; clear Hcall0.
    rewrite Hsettle in Hsettle0.
    assert (Hentry : forall err,
               mentions (latest_failure_entry metric err) metric /\
               mentions (latest_failure_entry metric err) (message err)).
    { intros err; split; unfold latest_failure_entry.
      - apply mentions_inside.
      - rewrite <- !append_assoc. apply mentions_suffix. }
    destruct (outcome (latest_reply env metric w)) as [[|row rest]|err];
      inversion Hsettle0; subst; simpl; rewrite Hlog;
      (split; [reflexivity | apply Hentry]).
  - intros before p after e w Hok Hp.
    unfold writeData, async, try_catch.
    unfold bind at 1.
    rewrite (writePoints_refuses env before p after e w Hok Hp).
    eexists. split; [reflexivity|]. simpl.
    split; [reflexivity|]. apply mentions_suffix.
  - intros query w p w' s w'' Hcall Hsettle.
    inversion Hcall; subst; clear Hcall.
    simpl in Hsettle. inversion Hsettle; subst. now split.
Qed.

End LoggingClaims.

(** ** Automatic flushing *)

Section AutoFlushFacts.

(** Below the size threshold, points pile up in the buffer and nothing
    is sent. *)
Lemma enqueue_below_threshold points api :
  Z.of_nat (length (buffer api) + length points) < batchSize (options api) ->
  sent (enqueue points api) = sent api /\
  buffer (enqueue points api) = buffer api ++ points /\
  options (enqueue points api) = options api.
Proof.
  revert api; induction points as [|p points IH]; intros api Hlt; simpl.
  - now rewrite app_nil_r.
  - simpl in Hlt.
    assert (Hadd : add p api
                   = {| options := options api;
                        buffer := buffer api ++ [p];
                        timer := timer (add p api);
                        sent := sent api;
                        flush_calls := flush_calls api |}).
    { unfold add; simpl.
      destruct (batchSize (options api)
                <=? Z.of_nat (length (buffer api ++ [p]))) eqn:Hcmp.
      - apply Z.leb_le in Hcmp. rewrite length_app in Hcmp; simpl in Hcmp. lia.
      - reflexivity. }
    unfold enqueue in *; simpl.
    destruct (IH (add p api)) as (Hsent & Hbuf & Hopt).
    { rewrite Hadd; simpl. rewrite length_app; simpl. lia. }
    rewrite Hsent, Hbuf, Hopt. rewrite Hadd; simpl.
    now rewrite <- app_assoc.
Qed.

(** The point that fills the buffer up to the threshold makes the client
    send the whole batch by itself. *)
Lemma add_reaches_threshold p api :
  Z.of_nat (length (buffer api) + 1) = batchSize (options api) ->
  sent (add p api) = sent api ++ [mkBatch (buffer api ++ [p]) BySize] /\
  buffer (add p api) = [].
Proof.
  intros Hfull. unfold add; simpl.
  destruct (batchSize (options api)
            <=? Z.of_nat (length (buffer api ++ [p]))) eqn:Hcmp.
  - now split.
  - apply Z.leb_gt in Hcmp. rewrite length_app in Hcmp; simpl in Hcmp. lia.
Qed.

Lemma enqueue_app xs ys api :
  enqueue (xs ++ ys) api = enqueue ys (enqueue xs api).
Proof. unfold enqueue. apply foldl_app. Qed.

(** Exactly [batchSize] points put into an empty buffer leave as one
    batch sent by size. *)
Lemma enqueue_full_batch points api :
  buffer api = [] ->
  points <> [] ->
  Z.of_nat (length points) = batchSize (options api) ->
  sent (enqueue points api) = sent api ++ [mkBatch points BySize] /\
  buffer (enqueue points api) = [].
Proof.
  intros Hempty Hne Hlen.
  destruct (exists_last Hne) as (init & last & ->).
  rewrite length_app in Hlen; simpl in Hlen.
  rewrite enqueue_app.
  destruct (enqueue_below_threshold init api) as (Hsent & Hbuf & Hopt).
  { rewrite Hempty; simpl. lia. }
  unfold enqueue at 1 3; simpl. fold (enqueue init api).
  destruct (add_reaches_threshold last (enqueue init api)) as (Hsent' & Hbuf').
  { rewrite Hbuf, Hopt, Hempty; simpl. lia. }
  rewrite Hsent', Hbuf', Hsent, Hbuf, Hempty. now split.
Qed.

End AutoFlushFacts.

Section AutoFlushClaims.

Context (env : Env).

(** C3, as the code has it.  The options of lines 10-23 keep the
    periodic flush (every 15 s, not 0); line 37 creates the write API
    without them, so the client's defaults are in force; a [writeData]
    call that brings as many points as the threshold in force has them
    sent by the client itself, by size, and its own flush finds nothing
    to send; and had the options been passed, a point added to the empty
    buffer would still arm the timer or leave by size. *)
Theorem automatic_flush_is_not_disabled :
  flushInterval (writeOptions env) = 15000 /\
  (forall agent,
      options (writeApi (module_state env agent)) = DEFAULT_WriteOptions env) /\
  (forall points w,
      Forall (no_fault env) points ->
      buffer (writeApi w) = [] ->
      points <> [] ->
      Z.of_nat (length points) = batchSize (options (writeApi w)) ->
      exists w',
        writeData env points w = (Normal (PSettled (Fulfilled tt)), w') /\
        sent (writeApi w') = sent (writeApi w) ++ [mkBatch points BySize]) /\
  (forall p,
      let api := getWriteApi (DEFAULT_WriteOptions env) (Some (writeOptions env)) in
      timer (add p api) = true \/ sent (add p api) = [mkBatch [p] BySize]).
Proof.
  split; [reflexivity|]. split; [reflexivity|]. split.
  - intros points w Hok Hempty Hne Hlen.
    rewrite (writeData_is_flush env points w Hok).
    destruct (enqueue_full_batch points (writeApi w) Hempty Hne Hlen)
      as (Hsent & Hbuf).
    unfold flush; simpl. rewrite Hbuf.
    eexists. split; [reflexivity|]. exact Hsent.
  - intros p api. subst api. unfold add; simpl.
    destruct (flushBatchSize env + 1 <=? Z.of_nat 1); [right | left];
      reflexivity.
Qed.

End AutoFlushClaims.

(** ** The shared agent *)

Section AgentFacts.

Context (env : Env).

Lemma loaded_once_require : loaded_once (require env start).
Proof. repeat split. now eexists. Qed.

Lemma loaded_once_step p a : loaded_once p -> loaded_once (step env p a).
Proof.
  intros (Hagents & Hexit & world & Hworld).
  assert (Hreq : require env p = p) by (unfold require; now rewrite Hworld).
  destruct a as [|c|]; simpl; rewrite ?Hreq.
  - repeat split; try assumption. now exists world.
  - unfold on_module; repeat split; simpl; try assumption.
    rewrite Hworld; simpl. now eexists.
  - unfold on_module; repeat split; simpl; try assumption.
    rewrite Hworld; simpl. now eexists.
Qed.

Lemma loaded_once_run acts p : loaded_once p -> loaded_once (run env acts p).
Proof.
  revert p; induction acts as [|a acts IH]; intros p Hp; simpl.
  - exact Hp.
  - apply IH, loaded_once_step, Hp.
Qed.

Lemma lifecycle_step p a :
  not_loaded p \/ loaded_once p ->
  not_loaded (step env p a) \/ loaded_once (step env p a).
Proof.
  intros [(Hcache & Hagents & Hexit) | Hloaded];
    [|right; now apply loaded_once_step].
  assert (Hreq : loaded_once (require env p)).
  { unfold require, load. rewrite Hcache, Hagents, Hexit.
    repeat split. now eexists. }
  destruct a as [|c|]; simpl.
  - right; exact Hreq.
  - right. destruct Hreq as (Ha & He & world & Hworld).
    unfold on_module; repeat split; simpl; try assumption.
    rewrite Hworld; simpl. now eexists.
  - left. unfold on_module; repeat split; simpl; try assumption.
    now rewrite Hcache.
Qed.

Lemma lifecycle_run acts p :
  not_loaded p \/ loaded_once p ->
  not_loaded (run env acts p) \/ loaded_once (run env acts p).
Proof.
  revert p; induction acts as [|a acts IH]; intros p Hp; simpl.
  - exact Hp.
  - apply IH, lifecycle_step, Hp.
Qed.

Lemma require_loads p :
  not_loaded p \/ loaded_once p -> loaded_once (require env p).
Proof.
  intros [(Hcache & Hagents & Hexit) | Hloaded].
  - unfold require, load. rewrite Hcache, Hagents, Hexit.
    repeat split. now eexists.
  - destruct Hloaded as (Ha & He & world & Hworld).
    unfold require. rewrite Hworld. repeat split; try assumption.
    now exists world.
Qed.

End AgentFacts.

(** ** The write buffer between calls *)

Section IdleFacts.

Context (env : Env).

Lemma timer_fires_empties api : buffer api = [] -> buffer (timer_fires api) = [].
Proof.
  intros Hempty. unfold timer_fires.
  destruct (timer api); [|exact Hempty].
  now rewrite Hempty.
Qed.

(** An accepted [writeData] call leaves nothing in the buffer. *)
Lemma writeData_leaves_buffer_empty points w :
  Forall (no_fault env) points ->
  buffer (writeApi (finish (writeData env points) w)) = [].
Proof.
  intros Hok. unfold finish.
  rewrite (writeData_is_flush env points w Hok).
  unfold flush; simpl.
  destruct (buffer (enqueue points (writeApi w))); reflexivity.
Qed.

(** The two query operations do not touch the write API. *)
Lemma queryData_keeps_writeApi query w :
  writeApi (finish (queryData env query) w) = writeApi w.
Proof. reflexivity. Qed.

Lemma queryLatestDataPoint_keeps_writeApi metric w :
  writeApi (finish (queryLatestDataPoint env metric) w) = writeApi w.
Proof.
  unfold finish.
  destruct (queryLatestDataPoint_settles env metric w)
    as (p & w' & Hcall & _ & _ & _ & Hsettle).
  rewrite Hcall, Hsettle.
  assert (Hw : writeApi w' = writeApi w) by (now inversion Hcall).
  destruct (outcome (latest_reply env metric w)) as [[|row rest]|e];
    simpl; exact Hw.
Qed.

Lemma idle_step p a : accepted_action env a -> idle p -> idle (step env p a).
Proof.
  intros Hok Hidle.
  assert (Hreq : idle (require env p)).
  { unfold require. destruct (module_cache p) eqn:Hcache; [exact Hidle|].
    intros w Hw. inversion Hw; reflexivity. }
  destruct a as [|c|]; simpl.
  - exact Hreq.
  - intros w Hw. unfold on_module in Hw; simpl in Hw.
    destruct (module_cache (require env p)) as [w0|] eqn:Hcache;
      [|discriminate].
    inversion Hw; subst w; clear Hw.
    pose proof (Hreq w0 Hcache) as Hempty.
    destruct c as [points|query|metric]; unfold perform.
    + now apply writeData_leaves_buffer_empty.
    + now rewrite queryData_keeps_writeApi.
    + now rewrite queryLatestDataPoint_keeps_writeApi.
  - intros w Hw. unfold on_module in Hw; simpl in Hw.
    destruct (module_cache p) as [w0|] eqn:Hcache; [|discriminate].
    inversion Hw; subst w; clear Hw. simpl.
    now apply timer_fires_empties, Hidle.
Qed.

(** However many accepted calls a process has made, the module's write
    buffer is empty when the next one starts. *)
Lemma write_buffer_empty_between_calls acts :
  Forall (accepted_action env) acts -> idle (run env acts start).
Proof.
  intros Hok.
  assert (Hstart : idle start) by (intros w Hw; discriminate).
  revert Hstart. unfold run. generalize start.
  induction Hok as [|a acts Ha _ IH]; intros p Hp; simpl.
  - exact Hp.
  - apply IH, idle_step; assumption.
Qed.

End IdleFacts.

Section AgentClaims.

Context (env : Env).

(** C8.  Whatever a process has required, called or seen fire so far,
    it has either not loaded the module and has no agent, or has exactly
    one agent, keep-alive and not destroyed; the state in which an
    exported operation runs always has that one agent; and a process that
    has loaded the module and emits ['exit'] then has the same single
    agent, destroyed exactly once. *)
Theorem one_agent_per_process acts :
  ((module_cache (run env acts start) = None /\ agents (run env acts start) = [])
   \/ agents (run env acts start) = [mkAgent true 0]) /\
  agents (require env (run env acts start)) = [mkAgent true 0] /\
  exit_listeners (require env (run env acts start)) = [0%nat] /\
  agents (emit_exit (require env (run env acts start))) = [mkAgent true 1].
Proof.
  assert (Hstart : not_loaded start \/ loaded_once start)
    by (left; repeat split).
  pose proof (lifecycle_run env acts start Hstart) as Hrun.
  destruct (require_loads env _ Hrun) as (Hagents & Hexit & _).
  split.
  - destruct Hrun as [(Hcache & Hnone & _) | (Hone & _)];
      [left; now split | right; exact Hone].
  - split; [exact Hagents|]. split; [exact Hexit|].
    unfold emit_exit; simpl. now rewrite Hagents, Hexit.
Qed.

End AgentClaims.

(** ** [writeData] on every input *)

Section WriteDataPaths.

Context (env : Env).

(** Either the client accepts every element, or there is a first one it
    refuses. *)
Lemma first_fault points :
  Forall (no_fault env) points \/
  exists before p after e,
    points = before ++ p :: after /\
    Forall (no_fault env) before /\
    point_fault env p = Some e.
Proof.
  induction points as [|q points IH]; [left; constructor|].
  destruct (point_fault env q) as [e|] eqn:Hq.
  - right. exists [], q, points, e. repeat split; [constructor | exact Hq].
  - destruct IH as [Hok | (before & p & after & e & -> & Hok & Hp)].
    + left. constructor; assumption.
    + right. exists (q :: before), p, after, e.
      repeat split; [constructor; assumption | exact Hp].
Qed.

(** When an element is refused, the [catch] block runs in the world in
    which the elements before it have been added. *)
Lemma writeData_refused before p after e w :
  Forall (no_fault env) before ->
  point_fault env p = Some e ->
  writeData env (before ++ p :: after) w
  = (Normal (PSettled (Rejected e)),
     logged (write_failure_entry e)
       (with_writeApi (enqueue before (writeApi w)) w)).
Proof.
  intros Hok Hp. unfold writeData, async, try_catch.
  unfold bind at 1.
  rewrite (writePoints_refuses env before p after e w Hok Hp).
  reflexivity.
Qed.

Lemma options_add p api : options (add p api) = options api.
Proof.
  unfold add.
  match goal with |- context [if ?c then _ else _] => destruct c end;
    reflexivity.
Qed.

Lemma options_enqueue points api : options (enqueue points api) = options api.
Proof.
  revert api; induction points as [|p points IH]; intros api; simpl.
  - reflexivity.
  - unfold enqueue in *; simpl. now rewrite IH, options_add.
Qed.

(** Whatever adding points sends, it sends by size. *)
Lemma sent_enqueue points api :
  exists autos,
    sent (enqueue points api) = sent api ++ autos /\
    Forall (fun b => trigger b = BySize) autos.
Proof.
  revert api; induction points as [|p points IH]; intros api.
  - exists []. split; [now rewrite app_nil_r | constructor].
  - unfold enqueue in *; simpl.
    destruct (IH (add p api)) as (autos & Hsent & Hautos).
    rewrite Hsent. unfold add.
    match goal with |- context [if ?c then _ else _] => destruct c end; simpl.
    + eexists (_ :: autos). split; [now rewrite <- app_assoc|].
      constructor; [reflexivity | exact Hautos].
    + exists autos. now split.
Qed.

(** X1.  When the client refuses an element, [writeData] never reaches
    [flush]: its promise is rejected from the start with the client's
    error, the elements before the refused one have been accepted and
    nothing after it has, no batch has been flushed explicitly, and no
    query has been issued. *)
Theorem writeData_refusal_skips_flush before p after e w :
  Forall (no_fault env) before ->
  point_fault env p = Some e ->
  exists w' autos,
    writeData env (before ++ p :: after) w
    = (Normal (PSettled (Rejected e)), w') /\
    flush_calls (writeApi w') = flush_calls (writeApi w) /\
    accepted (writeApi w') = accepted (writeApi w) ++ before /\
    sent (writeApi w') = sent (writeApi w) ++ autos /\
    Forall (fun b => trigger b = BySize) autos /\
    issued w' = issued w.
Proof.
  intros Hok Hp.
  destruct (sent_enqueue before (writeApi w)) as (autos & Hsent & Hautos).
  eexists _, autos.
  split; [apply (writeData_refused _ _ _ _ _ Hok Hp)|].
  simpl. split; [apply flush_calls_enqueue|].
  split; [apply accepted_enqueue|]. split; [exact Hsent|].
  split; [exact Hautos | reflexivity].
Qed.

(** X2.  Every [writeData] call returns a promise and takes one of two
    paths.  Either the client accepts every element: then [flush] has been
    called exactly once and, however the promise settles, nothing is
    logged.  Or the client refuses an element: then [flush] has not been
    called, the promise is rejected with the client's error, and exactly
    one entry with that error's message has been logged. *)
Theorem writeData_logs_only_refusals points w :
  exists promise w',
    writeData env points w = (Normal promise, w') /\
    ((Forall (no_fault env) points /\
      flush_calls (writeApi w') = S (flush_calls (writeApi w)) /\
      snd (settle promise w') = w' /\
      log w' = log w)
     \/
     (exists e,
        Exists (fun p => point_fault env p = Some e) points /\
        flush_calls (writeApi w') = flush_calls (writeApi w) /\
        settle promise w' = (Rejected e, w') /\
        log w' = log w ++ [write_failure_entry e])).
Proof.
  destruct (first_fault points)
    as [Hok | (before & p & after & e & -> & Hok & Hp)].
  - pose proof (writeData_is_flush env points w Hok) as Hwd.
    pose proof (flush_calls_enqueue points (writeApi w)) as Hcalls.
    fold (enqueue points (writeApi w)) in Hcalls.
    unfold flush in Hwd; simpl in Hwd.
    destruct (buffer (enqueue points (writeApi w)));
      (eexists _, _; split; [exact Hwd|]; left; simpl;
       split; [exact Hok|]; split; [now rewrite Hcalls|]; now split).
  - eexists _, _. split; [apply (writeData_refused _ _ _ _ _ Hok Hp)|].
    right. exists e. simpl.
    split; [apply Exists_app; right; now constructor|].
    split; [apply flush_calls_enqueue|]. now split.
Qed.

End WriteDataPaths.

(** ** [queryLatestDataPoint] on every reply *)

Section LatestPaths.

Context (env : Env).

Lemma app_singleton_neq {A : Type} (l : list A) (x : A) : l ++ [x] <> l.
Proof.
  intros H. apply (f_equal (@length A)) in H.
  rewrite length_app in H; simpl in H. lia.
Qed.

(** X3.  A [queryLatestDataPoint] call issues its one query and leaves
    the write API alone.  Its promise is fulfilled exactly when the store
    answers with at least one row, a log entry is written exactly when it
    is not fulfilled, and an error of the store is passed on as it is. *)
Theorem queryLatestDataPoint_fulfils_iff_row metric w :
  exists p w' s w'',
    queryLatestDataPoint env metric w = (Normal p, w') /\
    settle p w' = (s, w'') /\
    issued w'' = issued w ++ [latest_query env metric] /\
    writeApi w'' = writeApi w /\
    ((exists point, s = Fulfilled point) <->
     (exists row rest, outcome (latest_reply env metric w) = Fulfilled (row :: rest))) /\
    ((exists point, s = Fulfilled point) <-> log w'' = log w) /\
    (forall e, outcome (latest_reply env metric w) = Rejected e -> s = Rejected e).
Proof.
  destruct (queryLatestDataPoint_settles env metric w)
    as (p & w' & Hcall & Hissued & Hlog & _ & Hsettle).
  assert (Hapi : writeApi w' = writeApi w) by (now inversion Hcall).
  destruct (outcome (latest_reply env metric w)) as [[|row rest]|err] eqn:Hreply.
  - eexists p, w', _, _. split; [exact Hcall|]. split; [exact Hsettle|].
    simpl. split; [exact Hissued|]. split; [exact Hapi|].
    split; [|split].
    + split; [intros (point & Hs) | intros (row & rest & Hr)]; discriminate.
    + split; [intros (point & Hs); discriminate|].
      rewrite Hlog. intros H. now apply app_singleton_neq in H.
    + intros e He; discriminate.
  - eexists p, w', _, _. split; [exact Hcall|]. split; [exact Hsettle|].
    split; [exact Hissued|]. split; [exact Hapi|].
    split; [|split].
    + split; intros _; eauto.
    + split; intros _; eauto.
    + intros e He; discriminate.
  - eexists p, w', _, _. split; [exact Hcall|]. split; [exact Hsettle|].
    simpl. split; [exact Hissued|]. split; [exact Hapi|].
    split; [|split].
    + split; [intros (point & Hs) | intros (row & rest & Hr)]; discriminate.
    + split; [intros (point & Hs); discriminate|].
      rewrite Hlog. intros H. now apply app_singleton_neq in H.
    + intros e He. now inversion He.
Qed.

End LatestPaths.

(** ** What a whole process keeps *)

Section ProcessFacts.

Context (env : Env).

(** Calls and timer events leave the client where it is and the write
    API on the options it was created with. *)
Lemma writeData_frame points w :
  influx (finish (writeData env points) w) = influx w /\
  options (writeApi (finish (writeData env points) w)) = options (writeApi w) /\
  issued (finish (writeData env points) w) = issued w.
Proof.
  unfold finish.
  destruct (first_fault env points)
    as [Hok | (before & p & after & e & -> & Hok & Hp)].
  - rewrite (writeData_is_flush env points w Hok).
    pose proof (options_enqueue points (writeApi w)) as Hopt.
    unfold flush; simpl.
    destruct (buffer (enqueue points (writeApi w))); simpl; now repeat split.
  - rewrite (writeData_refused env before p after e w Hok Hp). simpl.
    repeat split. apply options_enqueue.
Qed.

Lemma queryLatestDataPoint_frame metric w :
  influx (finish (queryLatestDataPoint env metric) w) = influx w /\
  writeApi (finish (queryLatestDataPoint env metric) w) = writeApi w /\
  issued (finish (queryLatestDataPoint env metric) w)
  = issued w ++ [latest_query env metric].
Proof.
  unfold finish.
  destruct (queryLatestDataPoint_settles env metric w)
    as (p & w' & Hcall & Hissued & _ & _ & Hsettle).
  rewrite Hcall, Hsettle.
  assert (Hw : influx w' = influx w /\ writeApi w' = writeApi w)
    by (inversion Hcall; now split).
  destruct Hw as (Hinflux & Hapi).
  destruct (outcome (latest_reply env metric w)) as [[|row rest]|e];
    simpl; now repeat split.
Qed.

Lemma perform_frame c w :
  influx (perform env c w) = influx w /\
  options (writeApi (perform env c w)) = options (writeApi w).
Proof.
  destruct c as [points|query|metric]; unfold perform.
  - destruct (writeData_frame points w) as (Hi & Ho & _). now split.
  - now split.
  - destruct (queryLatestDataPoint_frame metric w) as (Hi & Ha & _).
    rewrite Ha. now split.
Qed.

Lemma options_timer_fires api : options (timer_fires api) = options api.
Proof.
  unfold timer_fires. destruct (timer api); [|reflexivity].
  destruct (buffer api); reflexivity.
Qed.

(** A step of a process with the module loaded is a step of the
    module's state; agents and listeners stay. *)
Lemma step_loaded p a w :
  module_cache p = Some w ->
  module_cache (step env p a) = Some (advance env a w) /\
  agents (step env p a) = agents p /\
  exit_listeners (step env p a) = exit_listeners p.
Proof.
  intros Hcache.
  destruct a as [|c|]; simpl; unfold require, on_module;
    rewrite Hcache; simpl; rewrite ?Hcache; now repeat split.
Qed.

(** A step of a process that has not loaded the module: a timer event
    changes nothing, anything else loads the module on agent 0 first. *)
Lemma step_not_loaded p a :
  not_loaded p ->
  match a with
  | TimerFires => not_loaded (step env p a)
  | _ =>
      module_cache (step env p a) = Some (advance env a (module_state env 0)) /\
      agents (step env p a) = [mkAgent true 0] /\
      exit_listeners (step env p a) = [0%nat]
  end.
Proof.
  intros (Hcache & Hagents & Hexit).
  destruct a as [|c|]; simpl; unfold require, on_module, load;
    rewrite Hcache, ?Hagents, ?Hexit; simpl.
  - now repeat split.
  - now repeat split.
  - repeat split; simpl; try assumption; now rewrite ?Hcache.
Qed.

(** A property of the module's state that holds when the module body has
    run and that every permitted action keeps holds in every state a
    process reaches from its start. *)
Lemma module_invariant (ok : Action -> Prop) (I : World -> Prop) :
  I (module_state env 0) ->
  (forall a w, ok a -> I w -> I (advance env a w)) ->
  forall acts p,
    Forall ok acts ->
    not_loaded p \/ (loaded_once p /\ exists w, module_cache p = Some w /\ I w) ->
    not_loaded (run env acts p) \/
    (loaded_once (run env acts p) /\
     exists w, module_cache (run env acts p) = Some w /\ I w).
Proof.
  intros Hinit Hkeep acts.
  induction acts as [|a acts IH]; intros p Hok Hp; simpl; [exact Hp|].
  inversion Hok as [|? ? Ha Hacts]; subst.
  apply IH; [exact Hacts|].
  destruct Hp as [Hnot | (Hloaded & w & Hcache & Hw)].
  - pose proof (step_not_loaded p a Hnot) as Hstep.
    destruct a as [|c|].
    + destruct Hstep as (Hc & Hag & Hex). right. split.
      * repeat split; try assumption. rewrite Hc. now eexists.
      * eexists. split; [exact Hc|]. now apply Hkeep.
    + destruct Hstep as (Hc & Hag & Hex). right. split.
      * repeat split; try assumption. rewrite Hc. now eexists.
      * eexists. split; [exact Hc|]. now apply Hkeep.
    + left; exact Hstep.
  - right. split; [now apply loaded_once_step|].
    destruct (step_loaded p a w Hcache) as (Hc & _).
    eexists. split; [exact Hc|]. now apply Hkeep.
Qed.

Lemma advance_frame a w :
  influx (advance env a w) = influx w /\
  options (writeApi (advance env a w)) = options (writeApi w).
Proof.
  destruct a as [|c|]; simpl.
  - now split.
  - apply perform_frame.
  - split; [reflexivity | apply options_timer_fires].
Qed.

Lemma start_not_loaded : not_loaded start.
Proof. now repeat split. Qed.

(** Each call adds its query texts, and nothing else, to the queries
    issued. *)
Lemma issued_advance a w :
  issued (advance env a w) = issued w ++ queries_of env [a].
Proof.
  destruct a as [|[points|query|metric]|]; simpl; rewrite ?app_nil_r;
    try reflexivity.
  - now destruct (writeData_frame points w) as (_ & _ & ->).
  - now destruct (queryLatestDataPoint_frame metric w) as (_ & _ & ->).
Qed.

Lemma issued_step p a :
  of_module issued [] (step env p a)
  = of_module issued [] p ++ queries_of env [a].
Proof.
  unfold of_module at 2.
  destruct (module_cache p) as [w|] eqn:Hcache.
  - destruct (step_loaded p a w Hcache) as (Hc & _).
    unfold of_module. rewrite Hc. apply issued_advance.
  - destruct a as [|c|]; unfold of_module; simpl;
      unfold require, on_module, load; rewrite Hcache; simpl;
      rewrite ?Hcache; simpl; try reflexivity.
    apply (issued_advance (Invoke c)).
Qed.

Lemma queries_of_cons a acts :
  queries_of env (a :: acts) = queries_of env [a] ++ queries_of env acts.
Proof. unfold queries_of; simpl. now rewrite app_nil_r. Qed.

Lemma issued_run acts p :
  of_module issued [] (run env acts p)
  = of_module issued [] p ++ queries_of env acts.
Proof.
  revert p; induction acts as [|a acts IH]; intros p.
  - simpl. now rewrite app_nil_r.
  - rewrite queries_of_cons.
    change (run env (a :: acts) p) with (run env acts (step env p a)).
    rewrite IH, issued_step. now rewrite <- app_assoc.
Qed.

End ProcessFacts.

Section ProcessClaims.

Context (env : Env).

Lemma all_permitted (acts : list Action) : Forall (fun _ => True) acts.
Proof. induction acts; constructor; trivial. Qed.

(** X4.  In every state a process reaches, the write API of the loaded
    module runs on the client's default options: the options declared at
    lines 10-23 are never in force, and the size threshold in force is
    one below the declared one. *)
Theorem declared_write_options_never_apply acts w :
  module_cache (run env acts start) = Some w ->
  options (writeApi w) = DEFAULT_WriteOptions env /\
  batchSize (options (writeApi w)) = batchSize (writeOptions env) - 1 /\
  options (writeApi w) <> writeOptions env.
Proof.
  intros Hcache.
  destruct (module_invariant env (fun _ => True) (on_defaults env)) with
    (acts := acts) (p := start)
    as [(Hnone & _) | (_ & w0 & Hw0 & Hdefaults)].
  - reflexivity.
  - intros a w0 _ Hw0. unfold on_defaults in *.
    destruct (advance_frame env a w0) as (_ & Ho). now rewrite Ho.
  - apply all_permitted.
  - left. apply start_not_loaded.
  - rewrite Hcache in Hnone. discriminate.
  - rewrite Hcache in Hw0. inversion Hw0; subst w0.
    unfold on_defaults in Hdefaults.
    split; [exact Hdefaults|]. split.
    + rewrite Hdefaults. unfold writeOptions, flushBatchSize; simpl. lia.
    + rewrite Hdefaults. intros Heq.
      apply (f_equal batchSize) in Heq.
      unfold writeOptions, flushBatchSize in Heq; simpl in Heq. lia.
Qed.

(** X5.  In every state a process reaches with the module loaded, the
    client is the one the module body built, with the URL and token of
    the environment, and the agent its transport uses is the process's
    keep-alive agent, not yet destroyed, and the very agent the exit
    listener destroys: after ['exit'] that agent has been destroyed
    once. *)
Theorem client_agent_is_released_at_exit acts w :
  module_cache (run env acts start) = Some w ->
  influx w = mkInfluxDB (influxUrl env) (influxToken env) 0 /\
  agents (run env acts start) !! transport_agent (influx w)
  = Some (mkAgent true 0) /\
  exit_listeners (run env acts start) = [transport_agent (influx w)] /\
  agents (emit_exit (run env acts start)) !! transport_agent (influx w)
  = Some (mkAgent true 1).
Proof.
  intros Hcache.
  destruct (module_invariant env (fun _ => True) (client_as_built env)) with
    (acts := acts) (p := start)
    as [(Hnone & _) | ((Hagents & Hexit & _) & w0 & Hw0 & Hclient)].
  - reflexivity.
  - intros a w0 _ Hw0. unfold client_as_built in *.
    destruct (advance_frame env a w0) as (Hi & _). now rewrite Hi.
  - apply all_permitted.
  - left. apply start_not_loaded.
  - rewrite Hcache in Hnone. discriminate.
  - rewrite Hcache in Hw0. inversion Hw0; subst w0.
    unfold client_as_built in Hclient.
    split; [exact Hclient|]. rewrite Hclient; simpl.
    unfold emit_exit; simpl. rewrite Hagents, Hexit. now repeat split.
Qed.

(** X7.  The queries a process has handed to the store are exactly the
    texts of its [queryData] calls and the template queries of its
    [queryLatestDataPoint] calls, one per call and in call order;
    [writeData] calls, whether accepted or refused, issue none. *)
Theorem queries_issued_in_call_order acts w :
  module_cache (run env acts start) = Some w ->
  issued w = queries_of env acts.
Proof.
  intros Hcache.
  pose proof (issued_run env acts start) as Hrun.
  unfold of_module in Hrun. rewrite Hcache in Hrun. exact Hrun.
Qed.

(** X9.  A process whose writes bring only elements the client accepts
    and that otherwise only calls [queryData] has an empty log, whatever
    the transport and the store answer: rejected flushes and rejected
    queries leave no entry. *)
Theorem accepted_writes_and_raw_queries_never_log acts w :
  Forall (quiet env) acts ->
  module_cache (run env acts start) = Some w ->
  log w = [].
Proof.
  intros Hquiet Hcache.
  destruct (module_invariant env (quiet env) (fun w0 => log w0 = [])) with
    (acts := acts) (p := start)
    as [(Hnone & _) | (_ & w0 & Hw0 & Hlog)].
  - reflexivity.
  - intros a w0 Ha Hw0.
    destruct a as [|[points|query|metric]|]; simpl in *; try assumption;
      try contradiction.
    unfold finish. rewrite (writeData_is_flush env points w0 Ha).
    unfold flush; simpl.
    destruct (buffer (enqueue points (writeApi w0))); exact Hw0.
  - exact Hquiet.
  - left. apply start_not_loaded.
  - rewrite Hcache in Hnone. discriminate.
  - rewrite Hcache in Hw0. now inversion Hw0; subst w0.
Qed.

End ProcessClaims.

(** ** The query text determines the metric *)

Section QueryInjective.

Context (env : Env).

Lemma append_length (a b : string) :
  String.length (a +:+ b) = (String.length a + String.length b)%nat.
Proof.
  induction a as [|x a IH]; [reflexivity|].
  rewrite append_cons; simpl. now rewrite IH.
Qed.

Lemma append_cancel_l (a x y : string) : a +:+ x = a +:+ y -> x = y.
Proof.
  induction a as [|c a IH]; intros H; [exact H|].
  rewrite !append_cons in H. inversion H. now apply IH.
Qed.

Lemma append_cancel_r (a x y : string) : x +:+ a = y +:+ a -> x = y.
Proof.
  revert y; induction x as [|c x IH]; intros [|d y] H.
  - reflexivity.
  - apply (f_equal String.length) in H.
    rewrite !append_length in H; simpl in H. lia.
  - apply (f_equal String.length) in H.
    rewrite !append_length in H; simpl in H. lia.
  - rewrite !append_cons in H. inversion H. f_equal. now apply IH.
Qed.

(** X8.  Two metrics for which [queryLatestDataPoint] issues the same
    query text are the same metric. *)
Theorem latest_query_determines_metric metric1 metric2 :
  latest_query env metric1 = latest_query env metric2 ->
  metric1 = metric2.
Proof.
  rewrite !latest_query_split. intros H.
  apply append_cancel_l in H. now apply append_cancel_r in H.
Qed.

End QueryInjective.

(** ** The statements at work on the sample environments *)

Section Samples.

Import Demo.

Lemma sample_points_accepted : Forall (no_fault healthy) [btc; eth].
Proof. repeat constructor. Defined.

Lemma writeData_enqueues_in_order_then_flushes_witness :
  Forall (no_fault healthy) [btc; eth] /\
  exists promise w',
    writeData healthy [btc; eth] (fresh healthy) = (Normal promise, w') /\
    accepted (writeApi w') = [btc; eth] /\
    flush_calls (writeApi w') = 1%nat /\
    poll 1 promise w' = (None, w') /\
    poll 2 promise w' = (Some (Fulfilled tt), w').
Proof.
  split; [exact sample_points_accepted|].
  destruct (writeData_enqueues_in_order_then_flushes healthy [btc; eth]
              (fresh healthy) sample_points_accepted)
    as (promise & w' & Hcall & _ & _ & Hcalls & _ & Hacc & Hpoll).
  exists promise, w'.
  split; [exact Hcall|]. split; [exact Hacc|]. split; [exact Hcalls|].
  split; [exact (Hpoll 1%nat) | exact (Hpoll 2%nat)].
Defined.

Lemma writeData_empty_succeeds_witness :
  buffer (writeApi after_two_calls) = [] /\
  exists w',
    writeData healthy [] after_two_calls
    = (Normal (PSettled (Fulfilled tt)), w') /\
    sent (writeApi w') = [mkBatch [btc; eth] Explicit] /\
    log w' = [].
Proof.
  split; [reflexivity|].
  destruct (writeData_empty_succeeds healthy after_two_calls eq_refl)
    as (w' & Hcall & Hsent & _ & Hlog).
  exists w'. split; [exact Hcall|]. split; [exact Hsent | exact Hlog].
Defined.

Lemma writeData_flush_rejection_is_not_logged_witness :
  Forall (no_fault store_down) [btc; eth] /\
  exists promise w',
    writeData store_down [btc; eth] (fresh store_down) = (Normal promise, w') /\
    settle promise w' = (Rejected unavailable, w') /\
    log w' = [] /\
    flush_calls (writeApi w') = 1%nat /\
    sent (writeApi w') = [mkBatch [btc; eth] Explicit].
Proof.
  split; [exact sample_points_accepted|].
  apply (writeData_flush_rejection_is_not_logged store_down [btc; eth]
           (fresh store_down) unavailable sample_points_accepted).
  - simpl. discriminate.
  - reflexivity.
Defined.

Lemma automatic_flush_is_not_disabled_witness :
  Forall (no_fault healthy) (repeat btc 1000) /\
  Z.of_nat (length (repeat btc 1000))
  = batchSize (options (writeApi (fresh healthy))) /\
  exists w',
    writeData healthy (repeat btc 1000) (fresh healthy)
    = (Normal (PSettled (Fulfilled tt)), w') /\
    sent (writeApi w') = [mkBatch (repeat btc 1000) BySize].
Proof.
  assert (Hok : Forall (no_fault healthy) (repeat btc 1000)).
  { apply Forall_forall. intros p Hp.
    apply list_elem_of_In, repeat_spec in Hp. subst p. reflexivity. }
  split; [exact Hok|]. split; [reflexivity|].
  destruct (automatic_flush_is_not_disabled healthy) as (_ & _ & Hsize & _).
  apply (Hsize (repeat btc 1000) (fresh healthy) Hok eq_refl);
    [discriminate | reflexivity].
Defined.

Lemma queryLatestDataPoint_returns_first_row_witness :
  constant_text (influxBucket healthy) = true /\
  constant_text "price" = true /\
  outcome (latest_reply healthy "price" (fresh healthy)) = Fulfilled [btc_row] /\
  issues_latest_pipeline healthy "price" (fresh healthy) /\
  (exists p w',
      queryLatestDataPoint healthy "price" (fresh healthy) = (Normal p, w') /\
      settle p w'
      = (Fulfilled {| timestamp := Ms 1704067200000;
                      symbol := VString "BTC";
                      interval := VString "1m" |}, w')) /\
  (exists p w' point,
      queryLatestDataPoint numeric_data "price" (fresh numeric_data)
      = (Normal p, w') /\
      settle p w' = (Fulfilled point, w') /\
      timestamp point = Ms 1704067200000).
Proof.
  split; [reflexivity|]. split; [reflexivity|]. split; [reflexivity|].
  destruct (queryLatestDataPoint_returns_first_row healthy "price"
              (fresh healthy)) as (Hpipeline & p & w' & Hcall & _ & Hrow).
  split; [exact (Hpipeline eq_refl eq_refl)|]. split.
  - destruct (Hrow btc_row [] eq_refl) as (point & Hsettle & -> & _).
    exists p, w'. split; [exact Hcall | exact Hsettle].
  - destruct (queryLatestDataPoint_returns_first_row numeric_data "price"
                (fresh numeric_data)) as (_ & q & v' & Hcall' & _ & Hrow').
    destruct (Hrow' numeric_row [] eq_refl)
      as (point & Hsettle & _ & _ & Hnumber & _).
    destruct (Hnumber _ eq_refl) as (_ & Hwhole).
    destruct Hwhole as (k & (Hlow & Hhigh) & Htime).
    { vm_compute. discriminate. }
    exists q, v', point. split; [exact Hcall'|]. split; [exact Hsettle|].
    rewrite Htime. f_equal.
    change (k * 2 <= 3408134400001) in Hlow.
    change (3408134400001 < (k + 1) * 2) in Hhigh.
    lia.
Defined.

(** C6 fails for a metric with a double quote: the text issued for
    [sneaky_metric] reads as a pipeline with two filters, on [x] and on
    [y], and not as the pipeline that filters on the metric. *)
Lemma sneaky_metric_is_not_the_filter :
  ~ issues_latest_pipeline healthy sneaky_metric (fresh healthy).
Proof.
  intros (p & w' & text & Hcall & Hissued & Hread).
  apply (f_equal snd) in Hcall. simpl in Hcall. subst w'.
  simpl in Hissued. injection Hissued as <-.
  vm_compute in Hread. discriminate Hread.
Qed.

(** C7 fails in a state the module reaches: after a write in which the
    client refused an element, the element before it is still buffered,
    the flush of [writeData] with no points sends it, and with the
    transport down the promise is rejected. *)
Lemma writeData_empty_can_be_rejected :
  ~ succeeds (writeData store_down []) after_refusal.
Proof.
  intros (p & w' & a & w'' & Hcall & Hsettle).
  vm_compute in Hcall. injection Hcall as <- <-.
  simpl in Hsettle. discriminate Hsettle.
Qed.

Lemma queryLatestDataPoint_accepts_any_first_row_witness :
  outcome (latest_reply odd_data "price" (fresh odd_data))
  = Fulfilled [odd_row; btc_row] /\
  exists p w' point,
    queryLatestDataPoint odd_data "price" (fresh odd_data) = (Normal p, w') /\
    settle p w' = (Fulfilled point, w') /\
    symbol point = VUndefined /\
    interval point = VUndefined /\
    timestamp point = NaN.
Proof.
  split; [reflexivity|].
  destruct (queryLatestDataPoint_accepts_any_first_row odd_data "price"
              (fresh odd_data) odd_row [btc_row] eq_refl)
    as (p & w' & point & Hcall & Hsettle & _ & Hsymbol & Hinterval & _ & Htime).
  exists p, w', point.
  split; [exact Hcall|]. split; [exact Hsettle|].
  split; [exact (Hsymbol eq_refl)|]. split; [exact (Hinterval eq_refl)|].
  exact (Htime "yesterday" eq_refl eq_refl).
Defined.

Lemma queryLatestDataPoint_empty_result_is_TypeError_witness :
  outcome (latest_reply no_data "price" (fresh no_data)) = Fulfilled [] /\
  exists p w' e,
    queryLatestDataPoint no_data "price" (fresh no_data) = (Normal p, w') /\
    settle p w' = (Rejected e, logged (latest_failure_entry "price" e) w') /\
    name e = "TypeError".
Proof.
  split; [reflexivity|].
  destruct (queryLatestDataPoint_empty_result_is_TypeError no_data "price"
              (fresh no_data) eq_refl)
    as (p & w' & e & Hcall & Hsettle & _ & Hname & _).
  exists p, w', e. repeat split; assumption.
Defined.

Lemma queryLatestDataPoint_splices_metric_verbatim_witness :
  plain "price" = true /\
  literal_body ("price" +:+ query_after_metric)
  = Some ("price", query_after_literal) /\
  literal_body (crafted_metric +:+ query_after_metric)
  = Some ("price", " or r._measurement != " +:+ dquote +:+ query_after_metric).
Proof.
  split; [reflexivity|]. split.
  - destruct (queryLatestDataPoint_splices_metric_verbatim healthy "price"
                (fresh healthy)) as (_ & Hplain & _).
    exact (Hplain eq_refl).
  - destruct (queryLatestDataPoint_splices_metric_verbatim healthy
                crafted_metric (fresh healthy)) as (_ & _ & Hcut).
    exact (Hcut "price" (" or r._measurement != " +:+ dquote) eq_refl eq_refl).
Defined.

Lemma failures_logged_where_handled_witness :
  (exists p w' w'',
      queryLatestDataPoint store_down "price" (fresh store_down) = (Normal p, w') /\
      settle p w' = (Rejected unavailable, w'') /\
      log w''
      = ["Error querying latest data point for metric price: 503 Service Unavailable"]) /\
  (exists w',
      writeData healthy [btc; nameless; eth] (fresh healthy)
      = (Normal (PSettled (Rejected unnamed)), w') /\
      log w' = ["Error writing data points to InfluxDB: measurement name is missing"]) /\
  (exists p w' w'',
      queryData store_down "buckets()" (fresh store_down) = (Normal p, w') /\
      settle p w' = (Rejected unavailable, w'') /\
      log w'' = []).
Proof.
  destruct (failures_logged_where_handled store_down) as (Hlatest & _ & Hquery).
  destruct (failures_logged_where_handled healthy) as (_ & Hwrite & _).
  split; [|split].
  - eexists _, _, _. split; [reflexivity|]. split; [reflexivity|].
    exact (proj1 (Hlatest "price" (fresh store_down) _ _ _ _ eq_refl eq_refl)).
  - destruct (Hwrite [btc] nameless [eth] unnamed (fresh healthy))
      as (w' & Hcall & Hlog & _).
    + repeat constructor.
    + reflexivity.
    + exists w'. split; [exact Hcall | exact Hlog].
  - eexists _, _, _. split; [reflexivity|]. split; [reflexivity|].
    exact (proj2 (Hquery "buckets()" (fresh store_down) _ _ _ _ eq_refl eq_refl)).
Defined.

(** C4 fails for [queryData]: the store rejects the query, the promise
    is rejected, and no log entry has been written. *)
Lemma queryData_failure_is_not_logged :
  ~ logs_failure_once (queryData store_down "buckets()") (fresh store_down).
Proof.
  intros Hlogged.
  destruct (Hlogged _ _ _ _ eq_refl eq_refl) as (entry & Hlog & _).
  simpl in Hlog. discriminate Hlog.
Qed.

End Samples.

(** ** The further statements at work on the sample environments *)

Section MoreSamples.

Import Demo.

Lemma writeData_refusal_skips_flush_witness :
  Forall (no_fault healthy) [btc] /\
  point_fault healthy nameless = Some unnamed /\
  exists w',
    writeData healthy [btc; nameless; eth] (fresh healthy)
    = (Normal (PSettled (Rejected unnamed)), w') /\
    flush_calls (writeApi w') = 0%nat /\
    accepted (writeApi w') = [btc] /\
    issued w' = [].
Proof.
  assert (Hok : Forall (no_fault healthy) [btc]) by (repeat constructor).
  split; [exact Hok|]. split; [reflexivity|].
  destruct (writeData_refusal_skips_flush healthy [btc] nameless [eth] unnamed
              (fresh healthy) Hok eq_refl)
    as (w' & autos & Hcall & Hcalls & Hacc & _ & _ & Hissued).
  exists w'. repeat split; assumption.
Defined.

Lemma queryLatestDataPoint_fulfils_iff_row_witness :
  outcome (latest_reply healthy "price" (fresh healthy)) = Fulfilled [btc_row] /\
  exists p w' point w'',
    queryLatestDataPoint healthy "price" (fresh healthy) = (Normal p, w') /\
    settle p w' = (Fulfilled point, w'') /\
    log w'' = [].
Proof.
  split; [reflexivity|].
  destruct (queryLatestDataPoint_fulfils_iff_row healthy "price" (fresh healthy))
    as (p & w' & s & w'' & Hcall & Hsettle & _ & _ & Hrow & Hlog & _).
  assert (Hs : exists point, s = Fulfilled point).
  { apply Hrow. exists btc_row, []. reflexivity. }
  pose proof (proj1 Hlog Hs) as Hquiet.
  destruct Hs as (point & ->).
  exists p, w', point, w''. repeat split; assumption.
Defined.

Lemma rough_day_loaded :
  module_cache (run healthy rough_day start) = Some after_rough_day.
Proof. reflexivity. Defined.

Lemma declared_write_options_never_apply_witness :
  module_cache (run healthy rough_day start) = Some after_rough_day /\
  options (writeApi after_rough_day) = defaults /\
  batchSize (options (writeApi after_rough_day)) = 1001 - 1.
Proof.
  split; [exact rough_day_loaded|].
  destruct (declared_write_options_never_apply healthy rough_day
              after_rough_day rough_day_loaded) as (Hdefaults & Hsize & _).
  split; [exact Hdefaults | exact Hsize].
Defined.

Lemma client_agent_is_released_at_exit_witness :
  module_cache (run healthy rough_day start) = Some after_rough_day /\
  influx after_rough_day = mkInfluxDB "http://localhost:8086" "secret" 0 /\
  agents (emit_exit (run healthy rough_day start))
    !! transport_agent (influx after_rough_day)
  = Some (mkAgent true 1).
Proof.
  split; [exact rough_day_loaded|].
  destruct (client_agent_is_released_at_exit healthy rough_day
              after_rough_day rough_day_loaded) as (Hclient & _ & _ & Hexit).
  split; [exact Hclient | exact Hexit].
Defined.

Lemma queries_issued_in_call_order_witness :
  module_cache (run healthy rough_day start) = Some after_rough_day /\
  issued after_rough_day = [latest_query healthy "price"; "buckets()"].
Proof.
  split; [exact rough_day_loaded|].
  exact (queries_issued_in_call_order healthy rough_day after_rough_day
           rough_day_loaded).
Defined.

Lemma latest_query_determines_metric_witness :
  latest_query healthy "price" = latest_query healthy ("pri" +:+ "ce") /\
  "price" = "pri" +:+ "ce".
Proof.
  split; [reflexivity|].
  exact (latest_query_determines_metric healthy "price" ("pri" +:+ "ce") eq_refl).
Defined.

Lemma outage_quiet : Forall (quiet store_down) outage.
Proof. repeat constructor. Defined.

Lemma outage_loaded :
  module_cache (run store_down outage start) = Some after_outage.
Proof. reflexivity. Defined.

Lemma accepted_writes_and_raw_queries_never_log_witness :
  Forall (quiet store_down) outage /\
  module_cache (run store_down outage start) = Some after_outage /\
  log after_outage = [] /\
  sent (writeApi after_outage)
  = [mkBatch [btc; eth] Explicit; mkBatch [eth] Explicit].
Proof.
  split; [exact outage_quiet|]. split; [exact outage_loaded|].
  split; [|reflexivity].
  exact (accepted_writes_and_raw_queries_never_log store_down outage
           after_outage outage_quiet outage_loaded).
Defined.

End MoreSamples.
